(** * csv2db: the streaming bulk-import protocol of [csv2db.py]

    A shallow embedding of [transfer], of the adaptive back-off loop and
    the resource handling of [create_import_sqlite], and of [main].

    The program is effectful throughout (temporary directory, FIFO,
    sqlite3 subprocess, file objects).  Every call that leaves the
    interpreter is an [op]; an environment ([world]) decides, from the
    history of the run so far, whether the call succeeds or which
    exception it raises.  The run is recorded as a chronological [trace]
    of events, so that ordering and counting properties can be stated. *)

From Stdlib.Strings Require Import Ascii String Byte.
From Stdlib Require Import ZArith List Lia Bool.
Import ListNotations.
Local Open Scope Z_scope.

(** ** Exceptions *)

(** The exception classes the program can meet.  [OSError] stands for any
    [OSError] other than its two subclasses listed before it; [Exception]
    for any other subclass of Python's [Exception]. *)
Inductive exn : Type :=
| BrokenPipeError
| FileNotFoundError
| OSError
| CalledProcessError
| UnboundLocalError
| re_error
| Exception.

(** [except OSError] also catches the subclasses of [OSError]. *)
Definition is_OSError (e : exn) : bool :=
  match e with
  | BrokenPipeError | FileNotFoundError | OSError => true
  | _ => false
  end.

Definition is_BrokenPipeError (e : exn) : bool :=
  match e with
  | BrokenPipeError => true
  | _ => false
  end.

(** ** Calls, messages, events *)

Inductive op : Type :=
| Mkdtemp                        (* tempfile.mkdtemp() *)
| Mkfifo                         (* os.mkfifo(fifo_fname) *)
| RunCreateTable                 (* run([sqlite3, -cmd, CREATE TABLE, db], check=True) *)
| PopenImport                    (* Popen([sqlite3, ..., .import fifo table, db]) *)
| OpenFifo                       (* open(fifo_fname, "wb") *)
| Seek0                          (* csv_fh.seek(0) *)
| Read (n : Z)                   (* csv_fh.read(n) *)
| Write (data : list byte)       (* fifo_fh.write(data) *)
| Flush                          (* fifo_fh.flush() *)
| CloseFifo                      (* fifo_fh.close(), leaving the with block *)
| CsvClose                       (* csv_fh.close() *)
| QuitWrite                      (* proc.stdin.write(b".quit\n") *)
| StdinFlush                     (* proc.stdin.flush() *)
| StdinClose                     (* proc.stdin.close() *)
| Wait                           (* proc.wait() *)
| RemoveFifo                     (* os.remove(fifo_fname) *)
| Rmdir                          (* os.rmdir(tmpdir) *)
| ReCompile (pattern : string)   (* re.compile(args.name_filter, re.I) *)
| ZipWalker.                     (* zip_walker(...) *)

(** What the program says on its own account.  Only the messages that
    report the fate of an attempt, a caught exception or the usage text
    are kept; the remaining [logger] calls are progress diagnostics. *)
Inductive msg : Type :=
| PowerWorked (buf_size_power : nat)   (* logger.info("Power that worked: %d") *)
| PowerFailed (buf_size_power : nat)   (* logger.warning("Power that failed: %d; ...") *)
| FailedOnBufSize (buf_size : Z)       (* print("Failed on buf_size %d") *)
| FailedToCreateFifo (e : exn)         (* logger.exception("Failed to create FIFO: %s") *)
| ErrorLine (message : string)         (* sys.stderr.write('error: %s\n' % message) *)
| Help                                 (* parser.print_help() *)
| Printed (e : exn).                   (* print(ee) under __main__ *)

Inductive event : Type :=
| Did (o : op)
| Failed (o : op) (e : exn)
| Said (m : msg).

Definition trace := list event.

(** The environment: given the history, does the call succeed ([None])
    or raise ([Some e])? *)
Definition world := trace -> op -> option exn.

(** ** Program state *)

(** [csv_pos] is the read offset of [csv_fh].  [tmpdir], [fifo_fname] and
    [proc] tell whether the local variable of that name has been bound:
    none of them is initialised before the [try]. *)
Record state : Type := mkState {
  events : trace;
  csv_pos : nat;
  tmpdir : bool;
  fifo_fname : bool;
  proc : bool
}.

Definition initial : state :=
  {| events := []; csv_pos := 0%nat;
     tmpdir := false; fifo_fname := false; proc := false |}.

Definition record (e : event) (st : state) : state :=
  {| events := events st ++ [e]; csv_pos := csv_pos st;
     tmpdir := tmpdir st; fifo_fname := fifo_fname st; proc := proc st |}.

Definition set_pos (n : nat) (st : state) : state :=
  {| events := events st; csv_pos := n;
     tmpdir := tmpdir st; fifo_fname := fifo_fname st; proc := proc st |}.

(** ** Outcomes and the monad of the embedding *)

(** A statement returns, raises, or never finishes. *)
Inductive outcome (A : Type) : Type :=
| Returns (a : A)
| Raises (e : exn)
| Diverges.
Arguments Returns {A} a.
Arguments Raises {A} e.
Arguments Diverges {A}.

Definition M (A : Type) : Type := state -> outcome A * state.

Definition ret {A} (a : A) : M A := fun st => (Returns a, st).

Definition raise {A} (e : exn) : M A := fun st => (Raises e, st).

Definition diverge {A} : M A := fun st => (Diverges, st).

Definition bind {A B} (m : M A) (f : A -> M B) : M B :=
  fun st =>
    match m st with
    | (Returns a, st') => f a st'
    | (Raises e, st') => (Raises e, st')
    | (Diverges, st') => (Diverges, st')
    end.

Notation "x <- m ;; k" := (bind m (fun x => k))
  (at level 61, m at next level, right associativity).
Notation "m ;; k" := (bind m (fun _ => k))
  (at level 61, right associativity).

(** [try: m  except <catches> as e: handler e] *)
Definition try_except {A} (m : M A) (catches : exn -> bool)
    (handler : exn -> M A) : M A :=
  fun st =>
    match m st with
    | (Raises e, st') => if catches e then handler e st' else (Raises e, st')
    | r => r
    end.

(** [try: m  except <catches> as e: handler e  else: els] *)
Definition try_except_else {A} (m : M unit) (catches : exn -> bool)
    (handler : exn -> M A) (els : M A) : M A :=
  fun st =>
    match m st with
    | (Returns _, st') => els st'
    | (Raises e, st') => if catches e then handler e st' else (Raises e, st')
    | (Diverges, st') => (Diverges, st')
    end.

(** [try: m  finally: fin].  An exception raised by [fin] replaces the
    pending outcome of [m]; a diverging [m] never reaches [fin]. *)
Definition try_finally {A} (m : M A) (fin : M unit) : M A :=
  fun st =>
    match m st with
    | (Diverges, st') => (Diverges, st')
    | (r, st') =>
        match fin st' with
        | (Returns _, st'') => (r, st'')
        | (Raises e, st'') => (Raises e, st'')
        | (Diverges, st'') => (Diverges, st'')
        end
    end.

Definition say (m : msg) : M unit := fun st => (Returns tt, record (Said m) st).

(** Reading a local variable: unbound names raise [UnboundLocalError];
    when bound, each of these locals holds a truthy object (a non-empty
    path, a [Popen] instance). *)
Definition local (bound : state -> bool) : M bool :=
  fun st => if bound st then (Returns true, st) else (Raises UnboundLocalError, st).

Definition bind_tmpdir : M unit := fun st =>
  (Returns tt, {| events := events st; csv_pos := csv_pos st;
                  tmpdir := true; fifo_fname := fifo_fname st; proc := proc st |}).

Definition bind_fifo_fname : M unit := fun st =>
  (Returns tt, {| events := events st; csv_pos := csv_pos st;
                  tmpdir := tmpdir st; fifo_fname := true; proc := proc st |}).

Definition bind_proc : M unit := fun st =>
  (Returns tt, {| events := events st; csv_pos := csv_pos st;
                  tmpdir := tmpdir st; fifo_fname := fifo_fname st; proc := true |}).

Definition when (b : bool) (m : M unit) : M unit := if b then m else ret tt.

Section Program.

(** The environment of one run, the bytes of the archive member behind
    [csv_fh], and [file_info.file_size]. *)
Variable w : world.
Variable csv : list byte.
Variable file_size : Z.

Definition call (o : op) : M unit :=
  fun st =>
    match w (events st) o with
    | None => (Returns tt, record (Did o) st)
    | Some e => (Raises e, record (Failed o e) st)
    end.

(** [csv_fh.seek(0)] *)
Definition csv_seek0 : M unit :=
  fun st =>
    match w (events st) Seek0 with
    | None => (Returns tt, set_pos 0 (record (Did Seek0) st))
    | Some e => (Raises e, record (Failed Seek0 e) st)
    end.

(** [csv_fh.read(n)] on a buffered binary stream: [n] bytes from the
    current offset, fewer only at the end of the stream, and all the rest
    when [n] is negative. *)
Definition csv_read (n : Z) : M (list byte) :=
  fun st =>
    match w (events st) (Read n) with
    | None =>
        let rest := skipn (csv_pos st) csv in
        let data := if n <? 0 then rest else firstn (Z.to_nat n) rest in
        (Returns data,
         set_pos (csv_pos st + length data) (record (Did (Read n)) st))
    | Some e => (Raises e, record (Failed (Read n) e) st)
    end.

(** ** [transfer] (lines 158-173) *)

(** The [while left > 0] loop.  [fuel] bounds the number of iterations;
    running out of it is [Diverges]. *)
Fixpoint transfer_loop (fuel : nat) (buf_size left : Z) : M (option bool) :=
  if left >? 0 then
    match fuel with
    | O => diverge
    | S fuel' =>
        let can_do := Z.min left buf_size in
        left' <-
          try_except
            (data <- csv_read can_do ;;
             call (Write data) ;;
             call Flush ;;
             ret (left - can_do))
            is_BrokenPipeError
            (fun bpe => say (FailedOnBufSize buf_size) ;; raise bpe) ;;
        if left' <=? 0 then ret (Some true)
        else transfer_loop fuel' buf_size left'
    end
  else ret None.

(** With [buf_size >= 1] every iteration lowers [left] by at least one, so
    [file_size] iterations are enough (lemma [transfer_loop_fuel]); with
    [buf_size <= 0] the Python loop does not end by itself. *)
Definition transfer (buf_size : Z) : M (option bool) :=
  transfer_loop (Z.to_nat file_size) buf_size file_size.

(** ** The back-off loop of [create_import_sqlite] (lines 112-127) *)

(** [with open(fifo_fname, "wb") as fifo_fh: body] *)
Definition with_open_fifo {A} (body : M A) : M A :=
  call OpenFifo ;; try_finally body (call CloseFifo).

(** How one iteration of the [while] leaves the [with] block. *)
Inductive ctl : Type := Break | Next.

Fixpoint backoff_loop (buf_size_power : nat) : M unit :=
  match buf_size_power with
  | O => ret tt
  | S lower =>
      c <- with_open_fifo
             (csv_seek0 ;;
              try_except
                (finished <- transfer (2 ^ Z.of_nat (S lower)) ;;
                 say (PowerWorked (S lower)) ;;
                 ret Break)
                is_BrokenPipeError
                (fun ee => say (PowerFailed (S lower)) ;; ret Next)) ;;
      match c with
      | Break => ret tt
      | Next => backoff_loop lower
      end
  end.

(** ** [create_import_sqlite] (lines 84-155) *)

Definition create_fifo : M unit :=
  call Mkdtemp ;; bind_tmpdir ;;
  bind_fifo_fname ;; call Mkfifo.

Definition import_steps : M unit :=
  call RunCreateTable ;;
  call PopenImport ;; bind_proc ;;
  backoff_loop 24.

(** The [finally] block.  [csv_fh] is an open file object, hence truthy:
    the test [if csv_fh:] always takes its branch. *)
Definition cleanup : M unit :=
  call CsvClose ;;
  p <- local proc ;;
  when p (call QuitWrite ;; call StdinFlush ;; call StdinClose ;; call Wait) ;;
  f <- local fifo_fname ;;
  when f (call RemoveFifo) ;;
  t <- local tmpdir ;;
  when t (call Rmdir).

(** The [try] / [except OSError] / [else] part. *)
Definition import_body : M unit :=
  try_except_else create_fifo
    is_OSError (fun e => say (FailedToCreateFifo e))
    import_steps.

Definition create_import_sqlite : M unit :=
  try_finally import_body cleanup.

(** ** [ArgumentParser.error] (lines 27-30) and [main] (lines 176-200) *)

(** The override of [argparse]'s [error]: it reports and prints the
    usage, and unlike the method it replaces it does not exit. *)
Definition ArgumentParser_error (message : string) : M unit :=
  say (ErrorLine message) ;; say Help.

Record Namespace : Type := mkNamespace {
  zip_file : option string;
  sqlite_db_file : option string;
  name_filter : option string;
  max_csv_rows : option Z
}.

(** Truthiness of an optional string argument: [None] and the empty
    string are falsy. *)
Definition truthy (o : option string) : bool :=
  match o with
  | Some EmptyString => false
  | Some _ => true
  | None => false
  end.

(** [main], from the namespace [get_args] returns.  [create_fn] is built
    without any call leaving the interpreter; the local [name_filter] is
    bound only under its [if]. *)
Definition main (args : Namespace) : M unit :=
  name_filter_bound <-
    match name_filter args with
    | Some pattern =>
        if truthy (name_filter args)
        then call (ReCompile pattern) ;; ret true
        else ret false
    | None => ret false
    end ;;
  if truthy (zip_file args) then
    (if name_filter_bound : bool then call ZipWalker
     else raise UnboundLocalError)
  else say Help.

(** [try: main(sys.argv[1:])  except Exception as ee: print(ee)] *)
Definition program (args : Namespace) : M unit :=
  try_except (main args) (fun _ => true) (fun ee => say (Printed ee)).

End Program.

(** ** Observations on traces *)

(** The bytes accepted by the channel, in order. *)
Fixpoint written (t : trace) : list byte :=
  match t with
  | [] => []
  | Did (Write data) :: t' => data ++ written t'
  | _ :: t' => written t'
  end.

(** The attempts a trace reports: exponent and whether it worked. *)
Fixpoint attempts (t : trace) : list (nat * bool) :=
  match t with
  | [] => []
  | Said (PowerWorked p) :: t' => (p, true) :: attempts t'
  | Said (PowerFailed p) :: t' => (p, false) :: attempts t'
  | _ :: t' => attempts t'
  end.

Definition op_of (e : event) : option op :=
  match e with
  | Did o | Failed o _ => Some o
  | Said _ => None
  end.

Definition is_open (e : event) : bool :=
  match op_of e with Some OpenFifo => true | _ => false end.

Definition is_remove (e : event) : bool :=
  match op_of e with Some RemoveFifo => true | _ => false end.

Definition is_rmdir (e : event) : bool :=
  match op_of e with Some Rmdir => true | _ => false end.

Definition count (f : event -> bool) (t : trace) : nat :=
  length (filter f t).

(** ** Environments *)

(** Nothing ever fails. *)
Definition calm : world := fun _ _ => None.

(** The environment never fails a call of the kind [kind]. *)
Definition quiet (kind : op -> bool) (w : world) : Prop :=
  forall t o, kind o = true -> w t o = None.

(** * Vocabulary of the proofs *)

(** ** What a piece of code can add to the trace *)

(** Events of [transfer]: reads of the source, writes and flushes of the
    channel, and its own [print]. *)
Definition transfer_event (e : event) : bool :=
  match e with
  | Did (Read _) | Did (Write _) | Did Flush => true
  | Failed (Read _) _ | Failed (Write _) _ | Failed Flush _ => true
  | Said (FailedOnBufSize _) => true
  | _ => false
  end.

(** Events of the back-off loop. *)
Definition session_event (e : event) : bool :=
  match e with
  | Did OpenFifo | Did Seek0 | Did CloseFifo => true
  | Failed OpenFifo _ | Failed Seek0 _ | Failed CloseFifo _ => true
  | Said (PowerWorked _) | Said (PowerFailed _) => true
  | _ => transfer_event e
  end.

(** Events of everything before the [finally] block. *)
Definition body_event (e : event) : bool :=
  match e with
  | Did Mkdtemp | Did Mkfifo | Did RunCreateTable | Did PopenImport => true
  | Failed Mkdtemp _ | Failed Mkfifo _ | Failed RunCreateTable _
  | Failed PopenImport _ => true
  | Said (FailedToCreateFifo _) => true
  | _ => session_event e
  end.

(** [tame P m]: from every state, [m] finishes, only appends events that
    satisfy [P], and leaves the local variables as they are. *)
Definition tame {A} (P : event -> bool) (m : M A) : Prop :=
  forall st, exists new,
    events (snd (m st)) = events st ++ new /\
    forallb P new = true /\
    fst (m st) <> Diverges /\
    tmpdir (snd (m st)) = tmpdir st /\
    fifo_fname (snd (m st)) = fifo_fname st /\
    proc (snd (m st)) = proc st.

(** ** Shapes of the [finally] block *)

Definition is_removal (e : event) : bool := is_remove e || is_rmdir e.

(** The loader has been asked to quit and has exited. *)
Definition terminated : trace :=
  [Did CsvClose; Did QuitWrite; Did StdinFlush; Did StdinClose; Did Wait].

(** The ways the [finally] block can go: it stops before [os.remove], or
    it has closed the source and terminated the loader and then reaches
    [os.remove] and, if that succeeds, [os.rmdir]. *)
Inductive cleanup_shape (st : state) : trace -> outcome unit -> Prop :=
| stopped_early new e :
    forallb (fun ev => negb (is_removal ev)) new = true ->
    cleanup_shape st new (Raises e)
| remove_failed e :
    proc st = true ->
    cleanup_shape st (terminated ++ [Failed RemoveFifo e]) (Raises e)
| tmpdir_unbound :
    proc st = true -> tmpdir st = false ->
    cleanup_shape st (terminated ++ [Did RemoveFifo]) (Raises UnboundLocalError)
| rmdir_failed e :
    proc st = true ->
    cleanup_shape st (terminated ++ [Did RemoveFifo; Failed Rmdir e]) (Raises e)
| cleaned_up :
    proc st = true -> fifo_fname st = true -> tmpdir st = true ->
    cleanup_shape st (terminated ++ [Did RemoveFifo; Did Rmdir]) (Returns tt).

(** ** Concrete environments and inputs *)

(** Calls of the kind [target] raise [e]; everything else succeeds. *)
Definition fails_at (target : op -> bool) (e : exn) : world :=
  fun _ o => if target o then Some e else None.

Definition is_write (o : op) : bool :=
  match o with Write _ => true | _ => false end.

(** The reader has gone: every write to the channel is a broken pipe. *)
Definition broken_pipe : world := fails_at is_write BrokenPipeError.

(** sqlite3 exits non-zero on the CREATE TABLE command. *)
Definition schema_fails : world :=
  fails_at (fun o => match o with RunCreateTable => true | _ => false end)
           CalledProcessError.


(** The FIFO has disappeared by the time [os.remove] is called. *)
Definition fifo_gone : world :=
  fails_at (fun o => match o with RemoveFifo => true | _ => false end)
           FileNotFoundError.

(** A three-byte member, [abc]. *)
Definition abc : list byte := [x61; x62; x63]%byte.

(** ** Kinds of calls and events *)

Definition cleanup_call (o : op) : bool :=
  match o with
  | CsvClose | QuitWrite | StdinFlush | StdinClose | Wait
  | RemoveFifo | Rmdir => true
  | _ => false
  end.

Definition cleanup_event (e : event) : bool :=
  match op_of e with
  | Some o => cleanup_call o
  | None => false
  end.

(** ** One iteration of the back-off loop and of the copy loop *)

(** The state in which [transfer] starts an attempt: channel opened for
    writing, source rewound. *)
Definition opened (st : state) : state :=
  set_pos 0 (record (Did Seek0) (record (Did OpenFifo) st)).

(** Leaving the [with] block: [fifo_fh.close()], then [after]. *)
Definition closing {A} (w : world) (st : state)
    (after : state -> outcome A * state) : outcome A * state :=
  match w (events st) CloseFifo with
  | None => after (record (Did CloseFifo) st)
  | Some e => (Raises e, record (Failed CloseFifo e) st)
  end.

(** The source bytes [csv_fh.read(n)] returns at offset [pos]. *)
Definition chunk (csv : list byte) (pos : nat) (n : Z) : list byte :=
  if n <? 0 then skipn pos csv else firstn (Z.to_nat n) (skipn pos csv).

(** A call of the guarded block failed with [e]. *)
Definition failing (buf_size : Z) (o : op) (e : exn) (st : state)
    : outcome (option bool) * state :=
  (Raises e,
   if is_BrokenPipeError e
   then record (Said (FailedOnBufSize buf_size)) (record (Failed o e) st)
   else record (Failed o e) st).

(** ** Two models of a reader that gives up *)




(** ** Kinds of calls, reported failures, the started job *)

Definition channel_call (o : op) : bool :=
  match o with
  | OpenFifo | Seek0 | CloseFifo => true
  | _ => false
  end.

Definition data_call (o : op) : bool :=
  match o with
  | Read _ | Write _ | Flush => true
  | _ => false
  end.

(** The exponents [p + k], ..., [p + 1], each with its failure report. *)
Definition failures (p k : nat) : list (nat * bool) :=
  map (fun q => (q, false)) (rev (seq (S p) k)).

Definition setup_call (o : op) : bool :=
  match o with
  | Mkdtemp | Mkfifo | RunCreateTable | PopenImport => true
  | _ => false
  end.

(** The state in which the back-off loop starts when the FIFO has been
    created, the table created and the loader started. *)
Definition started : state :=
  {| events := [Did Mkdtemp; Did Mkfifo; Did RunCreateTable; Did PopenImport];
     csv_pos := 0; tmpdir := true; fifo_fname := true; proc := true |}.

(** Everything up to and including the last flush of the transfer. *)
Definition before_close (o : op) : bool := setup_call o || data_call o ||
  match o with OpenFifo | Seek0 => true | _ => false end.

(** ** The ten-mebibyte example and the command line *)



(** Events of a run that only deals with the command line. *)
Definition cli_event (e : event) : bool :=
  match e with
  | Did (ReCompile _) | Failed (ReCompile _) _ => true
  | Said Help | Said (Printed _) => true
  | _ => false
  end.

(** The filter pattern, when one is given, is accepted by [re.compile]. *)
Definition filter_compiles (w : world) (args : Namespace) (st : state) : Prop :=
  forall pattern,
    name_filter args = Some pattern -> truthy (Some pattern) = true ->
    w (events st) (ReCompile pattern) = None.

(** [re.compile] rejects every pattern it is given. *)
Definition rejects_pattern : world :=
  fails_at (fun o => match o with ReCompile _ => true | _ => false end) re_error.

(** No archive, no database, and an unbalanced parenthesis as filter. *)
Definition only_bad_filter : Namespace :=
  {| zip_file := None; sqlite_db_file := None;
     name_filter := Some "("%string; max_csv_rows := Some 0 |}.

(** Nothing on the command line. *)
Definition no_arguments : Namespace :=
  {| zip_file := None; sqlite_db_file := None;
     name_filter := None; max_csv_rows := Some 0 |}.

(** * Further vocabulary *)

(** ** Observations on the transfer *)

(** Reads ask for, and writes carry, between one and [buf_size] bytes
    (a write may carry fewer, at the end of the stream). *)
Definition within_chunk (buf_size : Z) (e : event) : bool :=
  match e with
  | Did (Read n) | Failed (Read n) _ => (1 <=? n) && (n <=? buf_size)
  | Did (Write data) | Failed (Write data) _ =>
      Z.of_nat (length data) <=? buf_size
  | _ => true
  end.

Definition is_write_done (e : event) : bool :=
  match e with Did (Write _) => true | _ => false end.

Definition is_flush_done (e : event) : bool :=
  match e with Did Flush => true | _ => false end.

(** ** Observations on the channel *)

Definition is_open_done (e : event) : bool :=
  match e with Did OpenFifo => true | _ => false end.

Definition is_close (e : event) : bool :=
  match op_of e with Some CloseFifo => true | _ => false end.

(** ** Observations on the job *)

Definition is_csv_close (e : event) : bool :=
  match op_of e with Some CsvClose => true | _ => false end.

(** Events of the steps before the loop: creating the directory and the
    FIFO, creating the table, starting the loader. *)
Definition setup_event (e : event) : bool :=
  match e with
  | Said (FailedToCreateFifo _) => true
  | _ => match op_of e with Some o => setup_call o | None => false end
  end.

(** Events in which sqlite3 is run or spoken to. *)
Definition sqlite_event (e : event) : bool :=
  match op_of e with
  | Some (RunCreateTable | PopenImport | QuitWrite | StdinFlush
         | StdinClose | Wait) => true
  | _ => false
  end.

(** ** Command lines *)

(** An archive, but no filter. *)
Definition archive_only : Namespace :=
  {| zip_file := Some "data.zip"%string; sqlite_db_file := None;
     name_filter := None; max_csv_rows := Some 0 |}.

(** An archive and a filter. *)
Definition archive_and_filter : Namespace :=
  {| zip_file := Some "data.zip"%string; sqlite_db_file := Some "out.db"%string;
     name_filter := Some "a"%string; max_csv_rows := Some 0 |}.

(** * [get_table_lengths] (lines 45-48) *)

(** ** Python dictionaries with string keys *)

(** A [dict] as the list of its items in insertion order; keys are
    unique. *)
Definition dict (V : Type) : Type := list (string * V).

(** [d[k] = v]: a known key keeps its place and takes the new value, a
    new key goes to the end. *)
Fixpoint dict_set {V} (k : string) (v : V) (d : dict V) : dict V :=
  match d with
  | [] => [(k, v)]
  | (k', v') :: d' =>
      if String.eqb k k' then (k, v) :: d' else (k', v') :: dict_set k v d'
  end.

(** [d.get(k)] *)
Fixpoint dict_get {V} (k : string) (d : dict V) : option V :=
  match d with
  | [] => None
  | (k', v') :: d' => if String.eqb k k' then Some v' else dict_get k d'
  end.

(** ** The function *)

(** The exceptions of [get_table_lengths]: [next] on an exhausted
    reader, a missing field, a field that is not an integer. *)
Inductive table_error : Type :=
| StopIteration
| IndexError
| ValueError.

Section TableLengths.

(** Python's [int] on a string; [None] stands for [ValueError]. *)
Variable int : string -> option Z.

(** [row[0]: int(row[1])], key first. *)
Definition table_length_item (row : list string) : table_error + string * Z :=
  match row with
  | [] => inl IndexError
  | [_] => inl IndexError
  | name :: len :: _ =>
      match int len with
      | Some n => inr (name, n)
      | None => inl ValueError
      end
  end.

(** The dict comprehension over the remaining rows. *)
Fixpoint table_lengths (rows : list (list string)) (d : dict Z)
    : table_error + dict Z :=
  match rows with
  | [] => inr d
  | row :: rows' =>
      match table_length_item row with
      | inl e => inl e
      | inr (name, n) => table_lengths rows' (dict_set name n d)
      end
  end.

(** [get_table_lengths], on the rows the [csv.reader] yields: the first
    row is skipped by [next(rdr)]. *)
Definition get_table_lengths (rows : list (list string))
    : table_error + dict Z :=
  match rows with
  | [] => inl StopIteration
  | _ :: rows' => table_lengths rows' []
  end.

(** A row the comprehension accepts. *)
Definition table_length_row (row : list string) : Prop :=
  exists name len rest n, row = name :: len :: rest /\ int len = Some n.

(** The first field of a row is [k]. *)
Definition keyed (k : string) (row : list string) : bool :=
  match row with
  | name :: _ => String.eqb k name
  | [] => false
  end.

End TableLengths.

(** [int] on a string of ASCII digits, and on nothing else: an instance
    for examples. *)
Fixpoint decimal_digits (s : string) (acc : Z) : option Z :=
  match s with
  | EmptyString => Some acc
  | String c s' =>
      let n := Z.of_nat (Ascii.nat_of_ascii c) - 48 in
      if (0 <=? n) && (n <=? 9) then decimal_digits s' (10 * acc + n)
      else None
  end.

Definition plain_decimal (s : string) : option Z :=
  match s with
  | EmptyString => None
  | _ => decimal_digits s 0
  end.

(** * [zip_walker] (lines 51-81) *)

(** ** Member names *)

Definition newline : Ascii.ascii := "010"%char.

Definition no_newline (s : list Ascii.ascii) : bool :=
  forallb (fun c => negb (Ascii.eqb c newline)) s.

(** [CSV_EXT_RX.match(name)] for the pattern [.*\.csv$]: from the start
    of the name, any characters but newlines, then [.csv], then the end
    of the name or its final newline. *)
Definition CSV_EXT_RX (name : string) : bool :=
  let backwards := rev (list_ascii_of_string name) in
  let backwards :=
    match backwards with
    | c :: before => if Ascii.eqb c newline then before else backwards
    | [] => backwards
    end in
  match backwards with
  | v :: s :: c :: dot :: stem =>
      Ascii.eqb v "v" && Ascii.eqb s "s" && Ascii.eqb c "c"
      && Ascii.eqb dot "." && no_newline stem
  | _ => false
  end.

(** The characters of [s] before the first [c], all of [s] if there is
    none. *)
Fixpoint before (c : Ascii.ascii) (s : list Ascii.ascii) : list Ascii.ascii :=
  match s with
  | [] => []
  | x :: s' => if Ascii.eqb x c then [] else x :: before c s'
  end.

(** [os.path.basename(name)] on POSIX paths (the program needs
    [os.mkfifo]): what follows the last slash. *)
Definition basename (name : list Ascii.ascii) : list Ascii.ascii :=
  rev (before "/"%char (rev name)).

(** [os.path.basename(name).split(".")[0]] *)
Definition table_name_chars (name : list Ascii.ascii) : list Ascii.ascii :=
  before "."%char (basename name).

Definition table_name (name : string) : string :=
  string_of_list_ascii (table_name_chars (list_ascii_of_string name)).

(** ** The walk *)

(** What the walk does with a member: [Scan] stands for opening it and
    running [CSVScanner(...).scan()] on it, [Output] for opening it
    again and calling [output_fn]. *)
Inductive walk_step : Type :=
| Scan (file_no : nat) (name : string)
| Output (file_no : nat) (name : string).

Section ZipWalker.

(** The compiled filter, if any, as the test [name_filter.match(name)];
    the outcome of scanning the member at position [file_no] ([None]
    when it succeeds); the statement [ss.sql_create_table()] renders for
    a scanned member; and [output_fn], if any, by the outcome of its
    call. *)
Variable name_filter : option (string -> bool).
Variable scan : nat -> string -> option exn.
Variable sql_create_table : string -> string.
Variable output_fn : option (nat -> string -> option exn).

(** [name_filter and not name_filter.match(name)] *)
Definition filtered_out (name : string) : bool :=
  match name_filter with
  | Some matches => negb (matches name)
  | None => false
  end.

(** The body of [for file_no, name in enumerate(zip.namelist())]. *)
Fixpoint walk (file_no : nat) (names : list string) (table_sql : dict string)
    : list walk_step * (exn + dict string) :=
  match names with
  | [] => ([], inr table_sql)
  | name :: rest =>
      if filtered_out name then walk (S file_no) rest table_sql
      else if CSV_EXT_RX name then
        match scan file_no name with
        | Some e => ([Scan file_no name], inl e)
        | None =>
            match output_fn with
            | Some output =>
                match output file_no name with
                | Some e => ([Scan file_no name; Output file_no name], inl e)
                | None =>
                    let (steps, result) := walk (S file_no) rest table_sql in
                    (Scan file_no name :: Output file_no name :: steps, result)
                end
            | None =>
                let (steps, result) :=
                  walk (S file_no) rest
                    (dict_set (table_name name) (sql_create_table name)
                       table_sql) in
                (Scan file_no name :: steps, result)
            end
        end
      else walk (S file_no) rest table_sql
  end.

(** [zip_walker], on the outcome of opening the archive: an exception, or
    the names [zip.namelist()] gives.  It returns [table_sql] when there
    is no [output_fn], and [None] otherwise. *)
Definition zip_walker (archive : exn + list string)
    : list walk_step * outcome (option (dict string)) :=
  match archive with
  | inl e => ([], Raises e)
  | inr names =>
      let (steps, result) := walk 0 names [] in
      match result with
      | inl e => (steps, Raises e)
      | inr table_sql =>
          (steps,
           Returns (match output_fn with
                    | Some _ => None
                    | None => Some table_sql
                    end))
      end
  end.

(** The members the walk deals with, with their positions: those the
    filter lets through and whose name matches [CSV_EXT_RX]. *)
Definition selects (name : string) : bool :=
  negb (filtered_out name) && CSV_EXT_RX name.

Fixpoint selected (file_no : nat) (names : list string) : list (nat * string) :=
  match names with
  | [] => []
  | name :: rest =>
      if selects name then (file_no, name) :: selected (S file_no) rest
      else selected (S file_no) rest
  end.

(** The steps for a member that goes through without failure. *)
Definition steps_of (member : nat * string) : list walk_step :=
  match output_fn with
  | Some _ => [Scan (fst member) (snd member); Output (fst member) (snd member)]
  | None => [Scan (fst member) (snd member)]
  end.

End ZipWalker.

(** The member a step is about. *)
Definition step_member (s : walk_step) : nat * string :=
  match s with
  | Scan file_no name | Output file_no name => (file_no, name)
  end.

(** Oracles for examples: nothing fails; the call at position 1 fails. *)
Definition never_fails : nat -> string -> option exn := fun _ _ => None.

Definition second_fails : nat -> string -> option exn :=
  fun file_no _ => if Nat.eqb file_no 1 then Some UnboundLocalError else None.

(** * Reasoning about runs *)

Ltac tame_done :=
  cbn in *; repeat split; try tauto; try congruence; try discriminate;
  try solve [intuition congruence].

Lemma tame_ret {A} P (a : A) : tame P (ret a).
Proof. intros st. exists []. cbn. rewrite app_nil_r. tame_done. Qed.

Lemma tame_raise {A} P e : tame P (@raise A e).
Proof. intros st. exists []. cbn. rewrite app_nil_r. tame_done. Qed.

Lemma tame_say P m : P (Said m) = true -> tame P (say m).
Proof. intros H st. exists [Said m]. cbn. rewrite H. tame_done. Qed.

Lemma tame_call w P o :
  P (Did o) = true -> (forall e, P (Failed o e) = true) -> tame P (call w o).
Proof.
  intros Hd Hf st. unfold call.
  destruct (w (events st) o) as [e|].
  - exists [Failed o e]. cbn. rewrite Hf. tame_done.
  - exists [Did o]. cbn. rewrite Hd. tame_done.
Qed.

Lemma tame_csv_seek0 w P :
  P (Did Seek0) = true -> (forall e, P (Failed Seek0 e) = true) ->
  tame P (csv_seek0 w).
Proof.
  intros Hd Hf st. unfold csv_seek0.
  destruct (w (events st) Seek0) as [e|].
  - exists [Failed Seek0 e]. cbn. rewrite Hf. tame_done.
  - exists [Did Seek0]. cbn. rewrite Hd. tame_done.
Qed.

Lemma tame_csv_read w csv P n :
  P (Did (Read n)) = true -> (forall e, P (Failed (Read n) e) = true) ->
  tame P (csv_read w csv n).
Proof.
  intros Hd Hf st. unfold csv_read.
  destruct (w (events st) (Read n)) as [e|].
  - exists [Failed (Read n) e]. cbn. rewrite Hf. tame_done.
  - exists [Did (Read n)]. cbn. rewrite Hd. tame_done.
Qed.

(** Sequencing, when the continuation is only known to be tame on the
    values [m] can return. *)
Lemma tame_bind_on {A B} P (Q : A -> Prop) (m : M A) (f : A -> M B) :
  tame P m ->
  (forall st a st', m st = (Returns a, st') -> Q a) ->
  (forall a, Q a -> tame P (f a)) ->
  tame P (bind m f).
Proof.
  intros Hm HQ Hf st. unfold bind.
  destruct (Hm st) as (n1 & E1 & F1 & D1 & L1).
  destruct (m st) as [[a|e|] st1] eqn:Em.
  - destruct (Hf a (HQ _ _ _ Em) st1) as (n2 & E2 & F2 & D2 & L2).
    exists (n1 ++ n2). cbn in E1. rewrite E2, E1, app_assoc, forallb_app, F1, F2.
    tame_done.
  - exists n1. tame_done.
  - tame_done.
Qed.

Lemma tame_bind {A B} P (m : M A) (f : A -> M B) :
  tame P m -> (forall a, tame P (f a)) -> tame P (bind m f).
Proof.
  intros Hm Hf. apply (tame_bind_on P (fun _ => True)); auto.
Qed.

Lemma tame_try_except {A} P (m : M A) catches handler :
  tame P m -> (forall e, tame P (handler e)) ->
  tame P (try_except m catches handler).
Proof.
  intros Hm Hh st. unfold try_except.
  destruct (Hm st) as (n1 & E1 & F1 & D1 & L1).
  destruct (m st) as [[a|e|] st1].
  - exists n1. tame_done.
  - destruct (catches e).
    + destruct (Hh e st1) as (n2 & E2 & F2 & D2 & L2).
      exists (n1 ++ n2). cbn in E1. rewrite E2, E1, app_assoc, forallb_app, F1, F2.
      tame_done.
    + exists n1. tame_done.
  - tame_done.
Qed.

Lemma tame_try_finally {A} P (m : M A) fin :
  tame P m -> tame P fin -> tame P (try_finally m fin).
Proof.
  intros Hm Hf st. unfold try_finally.
  destruct (Hm st) as (n1 & E1 & F1 & D1 & L1).
  destruct (Hf (snd (m st))) as (n2 & E2 & F2 & D2 & L2).
  destruct (m st) as [[a|e|] st1]; cbn [fst snd] in *; [| |congruence].
  all: destruct (fin st1) as [[[]|e2|] st2]; cbn [fst snd] in *; try congruence.
  all: exists (n1 ++ n2); rewrite E2, E1, app_assoc, forallb_app, F1, F2.
  all: tame_done.
Qed.

Lemma tame_weaken {A} (P Q : event -> bool) (m : M A) :
  (forall e, P e = true -> Q e = true) -> tame P m -> tame Q m.
Proof.
  intros HPQ Hm st. destruct (Hm st) as (n & E & F & R).
  exists n. repeat split; try tauto.
  rewrite forallb_forall in *. auto.
Qed.

Lemma transfer_event_session e : transfer_event e = true -> session_event e = true.
Proof. destruct e as [[]|[]|[]]; cbn; congruence. Qed.

Lemma session_event_body e : session_event e = true -> body_event e = true.
Proof. destruct e as [[]|[]|[]]; cbn; congruence. Qed.

(** What one guarded chunk copy of [transfer] hands to the test
    [left <= 0]: exactly [left - can_do]. *)
Lemma copy_chunk_value w csv buf_size left st (left' : Z) st' :
  try_except
    (data <- csv_read w csv (Z.min left buf_size) ;;
     call w (Write data) ;;
     call w Flush ;;
     ret (left - Z.min left buf_size))
    is_BrokenPipeError
    (fun bpe => say (FailedOnBufSize buf_size) ;; raise bpe) st
  = (Returns left', st') ->
  left' = left - Z.min left buf_size.
Proof.
  unfold try_except, bind, csv_read, call, ret, say, raise.
  repeat match goal with
         | |- context [match w ?t ?o with _ => _ end] => destruct (w t o)
         | |- context [is_BrokenPipeError ?e] => destruct (is_BrokenPipeError e)
         | _ => cbn
         end; congruence.
Qed.

(** [transfer] is tame as soon as the chunk size is positive and the fuel
    covers what is left: in particular it terminates. *)
Lemma tame_transfer_loop w csv fuel buf_size :
  1 <= buf_size ->
  forall left, left <= Z.of_nat fuel ->
  tame transfer_event (transfer_loop w csv fuel buf_size left).
Proof.
  intros Hb. induction fuel as [|fuel IH]; intros left Hl; cbn [transfer_loop].
  - destruct (left >? 0) eqn:E; [lia | apply tame_ret].
  - destruct (left >? 0) eqn:E; [|apply tame_ret].
    apply (tame_bind_on _ (fun l => l = left - Z.min left buf_size)).
    + apply tame_try_except.
      * apply tame_bind; [apply tame_csv_read; reflexivity|intros data].
        apply tame_bind; [apply tame_call; reflexivity|intros _].
        apply tame_bind; [apply tame_call; reflexivity|intros _].
        apply tame_ret.
      * intros e. apply tame_bind; [apply tame_say; reflexivity|intros _].
        apply tame_raise.
    + intros st l st'. apply copy_chunk_value.
    + intros l ->. destruct (_ <=? 0) eqn:E'; [apply tame_ret|].
      apply IH. lia.
Qed.

Lemma tame_transfer w csv file_size buf_size :
  1 <= buf_size -> tame transfer_event (transfer w csv file_size buf_size).
Proof.
  intros Hb. apply tame_transfer_loop; [exact Hb|lia].
Qed.

Lemma tame_backoff_loop w csv file_size p :
  tame session_event (backoff_loop w csv file_size p).
Proof.
  induction p as [|p IH]; cbn [backoff_loop]; [apply tame_ret|].
  apply tame_bind.
  - unfold with_open_fifo.
    apply tame_bind; [apply tame_call; reflexivity|intros _].
    apply tame_try_finally; [|apply tame_call; reflexivity].
    apply tame_bind; [apply tame_csv_seek0; reflexivity|intros _].
    apply tame_try_except.
    + apply tame_bind.
      * apply (tame_weaken transfer_event); [apply transfer_event_session|].
        apply tame_transfer.
        assert (0 < 2 ^ Z.of_nat (S p)) by (apply Z.pow_pos_nonneg; lia). lia.
      * intros _. apply tame_bind; [apply tame_say; reflexivity|intros _].
        apply tame_ret.
    + intros e. apply tame_bind; [apply tame_say; reflexivity|intros _].
      apply tame_ret.
  - intros [|]; [apply tame_ret|exact IH].
Qed.

(** ** Unfolding one call *)

Lemma bind_call {B} w o (k : unit -> M B) st :
  (x <- call w o ;; k x) st =
  match w (events st) o with
  | None => k tt (record (Did o) st)
  | Some e => (Raises e, record (Failed o e) st)
  end.
Proof. unfold bind, call. destruct (w (events st) o); reflexivity. Qed.

Lemma bind_call_unit w o st :
  call w o st =
  match w (events st) o with
  | None => (Returns tt, record (Did o) st)
  | Some e => (Raises e, record (Failed o e) st)
  end.
Proof. reflexivity. Qed.

Lemma bind_say {B} m (k : unit -> M B) st :
  (x <- say m ;; k x) st = k tt (record (Said m) st).
Proof. reflexivity. Qed.

Lemma bind_ret {A B} (a : A) (k : A -> M B) st :
  (x <- ret a ;; k x) st = k a st.
Proof. reflexivity. Qed.

(** ** The body and the [finally] block of [create_import_sqlite] *)

Lemma body_event_not_removal e : body_event e = true -> is_removal e = false.
Proof. destruct e as [[]|[]|[]]; cbn; congruence. Qed.

Lemma forallb_body_no_removal t :
  forallb body_event t = true ->
  forallb (fun e => negb (is_removal e)) t = true.
Proof.
  rewrite !forallb_forall. intros H e He.
  rewrite (body_event_not_removal e); auto.
Qed.

(** The body terminates, adds only body events, and binds [proc] exactly
    when the loader was started (in which case [fifo_fname] and [tmpdir]
    are bound too). *)
Lemma import_body_shape w csv file_size :
  exists r st,
    import_body w csv file_size initial = (r, st) /\
    r <> Diverges /\
    forallb body_event (events st) = true /\
    (In (Did PopenImport) (events st) ->
     proc st = true /\ fifo_fname st = true /\ tmpdir st = true) /\
    (proc st = true -> In (Did PopenImport) (events st)).
Proof.
  unfold import_body, try_except_else, create_fifo, import_steps.
  pose proof (tame_backoff_loop w csv file_size 24) as Hloop.
  set (loop := backoff_loop w csv file_size 24) in *. clearbody loop.
  rewrite bind_call. cbn.
  destruct (w [] Mkdtemp) as [e|] eqn:E1; cbn.
  { destruct (is_OSError e); cbn; eexists _, _; (split; [reflexivity|]); cbn;
      repeat split; try congruence; intuition discriminate. }
  rewrite bind_call_unit. cbn.
  destruct (w [Did Mkdtemp] Mkfifo) as [e|] eqn:E2; cbn.
  { destruct (is_OSError e); cbn; eexists _, _; (split; [reflexivity|]); cbn;
      repeat split; try congruence; intuition discriminate. }
  rewrite bind_call. cbn.
  destruct (w [Did Mkdtemp; Did Mkfifo] RunCreateTable) as [e|] eqn:E3; cbn.
  { eexists _, _; (split; [reflexivity|]); cbn;
      repeat split; try congruence; intuition discriminate. }
  rewrite bind_call. cbn.
  destruct (w [Did Mkdtemp; Did Mkfifo; Did RunCreateTable] PopenImport)
    as [e|] eqn:E4; cbn.
  { eexists _, _; (split; [reflexivity|]); cbn;
      repeat split; try congruence; intuition discriminate. }
  match goal with
  | |- context [loop ?s] =>
      destruct (Hloop s) as (new & E & F & D & Lt & Lf & Lp);
      destruct (loop s) as [r st]
  end.
  cbn in *. exists r, st. repeat split; auto.
  - rewrite E. cbn.
    rewrite forallb_forall in *. intros x Hx. apply session_event_body; auto.
  - intros _. rewrite E. cbn. auto.
Qed.

Lemma cleanup_cases w st :
  exists new,
    events (snd (cleanup w st)) = events st ++ new /\
    cleanup_shape st new (fst (cleanup w st)).
Proof.
  unfold cleanup, bind, call, local, when, ret. cbn.
  destruct (w (events st) CsvClose); cbn.
  { eexists; split; [reflexivity|]. now apply stopped_early. }
  destruct (proc st) eqn:Ep; cbn.
  2:{ eexists; split; [reflexivity|]. now apply stopped_early. }
  destruct (w _ QuitWrite); cbn.
  { eexists; split; [rewrite <- !app_assoc; reflexivity|]. now apply stopped_early. }
  destruct (w _ StdinFlush); cbn.
  { eexists; split; [rewrite <- !app_assoc; reflexivity|]. now apply stopped_early. }
  destruct (w _ StdinClose); cbn.
  { eexists; split; [rewrite <- !app_assoc; reflexivity|]. now apply stopped_early. }
  destruct (w _ Wait); cbn.
  { eexists; split; [rewrite <- !app_assoc; reflexivity|]. now apply stopped_early. }
  destruct (fifo_fname st) eqn:Ef; cbn.
  2:{ eexists; split; [rewrite <- !app_assoc; reflexivity|]. now apply stopped_early. }
  destruct (w _ RemoveFifo); cbn.
  { eexists; split; [rewrite <- !app_assoc; reflexivity|].
    now apply (remove_failed st). }
  destruct (tmpdir st) eqn:Et; cbn.
  2:{ eexists; split; [rewrite <- !app_assoc; reflexivity|].
      now apply (tmpdir_unbound st). }
  destruct (w _ Rmdir); cbn.
  { eexists; split; [rewrite <- !app_assoc; reflexivity|].
    now apply (rmdir_failed st). }
  eexists; split; [rewrite <- !app_assoc; reflexivity|].
  now apply (cleaned_up st).
Qed.

(** A run of [create_import_sqlite] is a run of the body followed by a
    run of the [finally] block; the block's exception, if any, wins. *)
Lemma create_import_sqlite_split w csv file_size :
  exists r st new,
    import_body w csv file_size initial = (r, st) /\
    r <> Diverges /\
    forallb body_event (events st) = true /\
    (In (Did PopenImport) (events st) ->
     proc st = true /\ fifo_fname st = true /\ tmpdir st = true) /\
    (proc st = true -> In (Did PopenImport) (events st)) /\
    events (snd (create_import_sqlite w csv file_size initial))
      = events st ++ new /\
    cleanup_shape st new (fst (cleanup w st)) /\
    fst (create_import_sqlite w csv file_size initial)
      = match fst (cleanup w st) with
        | Returns _ => r
        | Raises e => Raises e
        | Diverges => Diverges
        end.
Proof.
  destruct (import_body_shape w csv file_size) as (r & st & E & D & F & L & L').
  destruct (cleanup_cases w st) as (new & En & S).
  exists r, st, new. repeat split; try tauto.
  - unfold create_import_sqlite, try_finally. rewrite E.
    destruct r; try congruence;
      destruct (cleanup w st) as [[[]| |] ?]; cbn in *; auto.
  - unfold create_import_sqlite, try_finally. rewrite E.
    destruct r; try congruence;
      destruct (cleanup w st) as [[[]| |] ?]; cbn in *; auto.
Qed.

(** If [e] satisfies [f] and nothing else around [x] does, a splitting of
    the list at [e] is the splitting at [x]. *)
Lemma split_at_unique {A} (f : A -> bool) (a : list A) x b s1 e t2 :
  a ++ x :: b = s1 ++ e :: t2 ->
  forallb (fun y => negb (f y)) a = true ->
  forallb (fun y => negb (f y)) b = true ->
  f e = true ->
  s1 = a /\ e = x /\ t2 = b.
Proof.
  revert s1. induction a as [|y a IH]; intros [|z s1] H Ha Hb He; cbn in *.
  - inversion H; auto.
  - inversion H; subst. rewrite forallb_app in Hb. cbn in Hb.
    rewrite He in Hb. cbn in Hb. rewrite andb_false_r in Hb. discriminate.
  - inversion H; subst. rewrite He in Ha. discriminate.
  - inversion H; subst. apply andb_prop in Ha as [_ Ha].
    destruct (IH s1 H2 Ha Hb He) as (-> & -> & ->). auto.
Qed.

Lemma no_split_without {A} (f : A -> bool) (l : list A) s1 e t2 :
  l = s1 ++ e :: t2 ->
  forallb (fun y => negb (f y)) l = true ->
  f e = true -> False.
Proof.
  intros -> H He. rewrite forallb_app in H. cbn in H.
  rewrite He in H. cbn in H. rewrite andb_false_r in H. discriminate.
Qed.

(** ** Counting events *)

Lemma count_app f a b : count f (a ++ b) = (count f a + count f b)%nat.
Proof. unfold count. rewrite filter_app, length_app. reflexivity. Qed.

Lemma count_none f t :
  forallb (fun e => negb (f e)) t = true -> count f t = 0%nat.
Proof.
  unfold count. induction t as [|x t IH]; cbn; [reflexivity|].
  intros H. apply andb_prop in H as [Hx Ht].
  destruct (f x); [discriminate|auto].
Qed.

Lemma no_removal_no_remove t :
  forallb (fun e => negb (is_removal e)) t = true ->
  forallb (fun e => negb (is_remove e)) t = true /\
  forallb (fun e => negb (is_rmdir e)) t = true.
Proof.
  rewrite !forallb_forall. intros H. split; intros e He; specialize (H e He);
    unfold is_removal in H; destruct (is_remove e), (is_rmdir e);
    cbn in *; congruence.
Qed.

(** ** The order of termination and removal *)

(** C5.  Whenever a run of [create_import_sqlite] reaches [os.remove] on
    the FIFO, the four steps of the terminate sequence, writing [.quit],
    flushing, closing the control input and [proc.wait()], have all
    succeeded immediately before it, and the loader had been started
    earlier.  This holds in every environment, hence for successful,
    exhausted and aborted transfers alike: the channel entry is never
    removed while the loader has not exited. *)
Theorem C5_loader_exited_before_channel_removed w csv file_size t1 e t2 :
  events (snd (create_import_sqlite w csv file_size initial)) = t1 ++ e :: t2 ->
  is_remove e = true ->
  exists t0,
    t1 = t0 ++ [Did QuitWrite; Did StdinFlush; Did StdinClose; Did Wait] /\
    In (Did PopenImport) t0.
Proof.
  intros Hsplit He.
  destruct (create_import_sqlite_split w csv file_size)
    as (r & st & new & _ & _ & Fb & _ & Lp & Ev & Sh & _).
  rewrite Ev in Hsplit.
  pose proof (proj1 (no_removal_no_remove _ (forallb_body_no_removal _ Fb))) as Nb.
  assert (Hcase : forall rm tail,
             new = terminated ++ rm :: tail -> proc st = true ->
             forallb (fun y => negb (is_remove y)) tail = true ->
             exists t0,
               t1 = t0 ++ [Did QuitWrite; Did StdinFlush; Did StdinClose; Did Wait] /\
               In (Did PopenImport) t0).
  { intros rm tail -> Hp Ht. rewrite app_assoc in Hsplit.
    symmetry in Hsplit.
    assert (Ha : forallb (fun y => negb (is_remove y)) (events st ++ terminated) = true).
    { rewrite forallb_app, Nb. reflexivity. }
    destruct (split_at_unique is_remove _ _ _ _ _ _ (eq_sym Hsplit) Ha Ht He)
      as (-> & _ & _).
    exists (events st ++ [Did CsvClose]). split.
    - rewrite <- app_assoc. reflexivity.
    - apply in_or_app. left. auto. }
  inversion Sh as [n0 e0 Hn| e0 Hp | Hp Ht | e0 Hp | Hp Hf Ht]; subst.
  - exfalso. apply (no_split_without is_remove _ _ _ _ Hsplit); [|exact He].
    rewrite forallb_app, Nb. apply no_removal_no_remove. exact Hn.
  - apply (Hcase (Failed RemoveFifo e0) []); auto.
  - apply (Hcase (Did RemoveFifo) []); auto.
  - apply (Hcase (Did RemoveFifo) [Failed Rmdir e0]); auto.
  - apply (Hcase (Did RemoveFifo) [Did Rmdir]); auto.
Qed.

(** The property at work on a transfer that fails: the first write is
    refused with an I/O error, the exception leaves the loop, and the
    loader is still asked to quit and waited for before the FIFO goes. *)
Lemma C5_witness :
  exists t0,
    [Did Mkdtemp; Did Mkfifo; Did RunCreateTable; Did PopenImport;
     Did OpenFifo; Did Seek0; Did (Read 3); Failed (Write abc) OSError;
     Did CloseFifo; Did CsvClose;
     Did QuitWrite; Did StdinFlush; Did StdinClose; Did Wait]
      = t0 ++ [Did QuitWrite; Did StdinFlush; Did StdinClose; Did Wait] /\
    In (Did PopenImport) t0.
Proof.
  apply (C5_loader_exited_before_channel_removed (fails_at is_write OSError)
           abc 3 _ (Did RemoveFifo) [Did Rmdir]); reflexivity.
Defined.

(** ** The [finally] block when nothing in it fails *)

Lemma tame_local P bound : tame P (local bound).
Proof.
  intros st. exists []. unfold local. rewrite app_nil_r.
  destruct (bound st); tame_done.
Qed.

Lemma tame_cleanup w : tame cleanup_event (cleanup w).
Proof.
  unfold cleanup.
  repeat first
    [ apply tame_ret
    | apply tame_local
    | apply tame_call; [reflexivity|intro; reflexivity]
    | apply tame_bind; [|intros []] ].
Qed.





(** C6 (the code at the failing input).  When the CREATE TABLE run of
    sqlite3 exits non-zero, no transfer is attempted, but [proc] was never
    bound: the test [if proc:] of the [finally] block raises
    [UnboundLocalError], which replaces [CalledProcessError], and neither
    the FIFO nor the temporary directory is removed. *)
Theorem C6_schema_failure_leaves_fifo_and_tmpdir csv file_size :
  create_import_sqlite schema_fails csv file_size initial =
  (Raises UnboundLocalError,
   {| events := [Did Mkdtemp; Did Mkfifo;
                 Failed RunCreateTable CalledProcessError; Did CsvClose];
      csv_pos := 0; tmpdir := true; fifo_fname := true; proc := false |}).
Proof. reflexivity. Qed.

(** C7 (as amended).  If [os.remove] fails on the FIFO, with whatever
    exception [e], that exception is what [create_import_sqlite] raises,
    the failed call is the last event of the run, and [os.rmdir] is not
    called at all. *)
Theorem C7_failed_remove_is_fatal_and_skips_rmdir w csv file_size e :
  let run := create_import_sqlite w csv file_size initial in
  In (Failed RemoveFifo e) (events (snd run)) ->
  fst run = Raises e /\
  (exists before, events (snd run) = before ++ [Failed RemoveFifo e]) /\
  count is_rmdir (events (snd run)) = 0%nat.
Proof.
  intros run Hin. subst run.
  destruct (create_import_sqlite_split w csv file_size)
    as (r & st & new & Eb & D & Fb & Lb & _ & Ev & Sh & Out).
  destruct (no_removal_no_remove _ (forallb_body_no_removal _ Fb)) as [Nr Nd].
  rewrite Ev in *. rewrite Out.
  apply in_app_or in Hin as [H|H].
  { rewrite forallb_forall in Fb. specialize (Fb _ H). discriminate. }
  inversion Sh as [n0 e0 Hn Hnew Hout| e0 Hp Hnew Hout | Hp Ht Hnew Hout
                  | e0 Hp Hnew Hout | Hp Hf Ht Hnew Hout]; subst new.
  - rewrite forallb_forall in Hn. specialize (Hn _ H). discriminate.
  - assert (e0 = e) as ->.
    { cbn in H. intuition congruence. }
    repeat split.
    + exists (events st ++ terminated). rewrite app_assoc. reflexivity.
    + rewrite !count_app, (count_none _ _ Nd). reflexivity.
  - cbn in H. exfalso. intuition discriminate.
  - cbn in H. exfalso. intuition discriminate.
  - cbn in H. exfalso. intuition discriminate.
Qed.

Lemma C7_witness :
  let run := create_import_sqlite fifo_gone abc 3 initial in
  fst run = Raises FileNotFoundError /\
  (exists before,
     events (snd run) = before ++ [Failed RemoveFifo FileNotFoundError]) /\
  count is_rmdir (events (snd run)) = 0%nat.
Proof.
  apply (C7_failed_remove_is_fatal_and_skips_rmdir fifo_gone abc 3).
  vm_compute. tauto.
Defined.

(** C7 as stated fails.  The FIFO is gone when [os.remove] is called:
    [FileNotFoundError] propagates to the caller of
    [create_import_sqlite], and no call of [os.rmdir] is made, successful
    or not. *)
Lemma C7_counterexample :
  let run := create_import_sqlite fifo_gone abc 3 initial in
  In (Failed RemoveFifo FileNotFoundError) (events (snd run)) /\
  fst run = Raises FileNotFoundError /\
  ~ In (Did Rmdir) (events (snd run)) /\
  (forall e, ~ In (Failed Rmdir e) (events (snd run))).
Proof.
  vm_compute. repeat split; try tauto.
  - intros H. repeat (destruct H as [H|H]; [discriminate|]). exact H.
  - intros e H. repeat (destruct H as [H|H]; [discriminate|]). exact H.
Qed.

(** ** One iteration of the back-off loop *)

Lemma backoff_loop_step w csv file_size p st :
  w (events st) OpenFifo = None ->
  w (events st ++ [Did OpenFifo]) Seek0 = None ->
  backoff_loop w csv file_size (S p) st =
  match transfer w csv file_size (2 ^ Z.of_nat (S p)) (opened st) with
  | (Returns _, st') =>
      closing w (record (Said (PowerWorked (S p))) st')
        (fun st'' => (Returns tt, st''))
  | (Raises e, st') =>
      if is_BrokenPipeError e
      then closing w (record (Said (PowerFailed (S p))) st')
             (backoff_loop w csv file_size p)
      else closing w st' (fun st'' => (Raises e, st''))
  | (Diverges, st') => (Diverges, st')
  end.
Proof.
  intros Ho Hs. cbn [backoff_loop].
  unfold with_open_fifo. unfold bind at 1. rewrite bind_call, Ho.
  unfold try_finally, bind at 1. unfold csv_seek0. cbn [events record].
  rewrite Hs. fold (opened st).
  unfold try_except, bind at 1, closing.
  destruct (transfer w csv file_size (2 ^ Z.of_nat (S p)) (opened st))
    as [[v|e|] st'].
  - rewrite bind_say. unfold ret, call. cbn [events record].
    destruct (w _ CloseFifo); reflexivity.
  - destruct (is_BrokenPipeError e).
    + rewrite bind_say. unfold ret, call. cbn [events record].
      destruct (w _ CloseFifo); reflexivity.
    + unfold call. destruct (w _ CloseFifo); reflexivity.
  - reflexivity.
Qed.

(** ** One iteration of the copy loop of [transfer] *)

Lemma transfer_loop_step w csv fuel buf_size left st :
  0 < left ->
  transfer_loop w csv (S fuel) buf_size left st =
  let can_do := Z.min left buf_size in
  match w (events st) (Read can_do) with
  | Some e => failing buf_size (Read can_do) e st
  | None =>
      let data := chunk csv (csv_pos st) can_do in
      let st1 := set_pos (csv_pos st + length data) (record (Did (Read can_do)) st) in
      match w (events st1) (Write data) with
      | Some e => failing buf_size (Write data) e st1
      | None =>
          let st2 := record (Did (Write data)) st1 in
          match w (events st2) Flush with
          | Some e => failing buf_size Flush e st2
          | None =>
              let st3 := record (Did Flush) st2 in
              if left - can_do <=? 0 then (Returns (Some true), st3)
              else transfer_loop w csv fuel buf_size (left - can_do) st3
          end
      end
  end.
Proof.
  intros Hl. cbn [transfer_loop].
  replace (left >? 0) with true by (symmetry; apply Z.gtb_lt; lia).
  cbv zeta. unfold bind at 1, try_except, bind at 1, csv_read, failing.
  fold (chunk csv (csv_pos st) (Z.min left buf_size)).
  destruct (w (events st) (Read (Z.min left buf_size))) as [e|].
  { destruct (is_BrokenPipeError e); reflexivity. }
  rewrite bind_call.
  destruct (w _ (Write _)) as [e|].
  { destruct (is_BrokenPipeError e); reflexivity. }
  rewrite bind_call. cbn [events record].
  destruct (w _ Flush) as [e|].
  { destruct (is_BrokenPipeError e); reflexivity. }
  unfold ret. destruct (_ <=? 0); reflexivity.
Qed.

(** ** Facts about [written], [attempts] and chunks *)

Lemma written_app a b : written (a ++ b) = written a ++ written b.
Proof.
  induction a as [|[[]| |] a IH]; cbn; auto.
  rewrite IH, app_assoc. reflexivity.
Qed.

Lemma attempts_app a b : attempts (a ++ b) = attempts a ++ attempts b.
Proof.
  induction a as [|[|?|[]] a IH]; cbn; auto; rewrite IH; reflexivity.
Qed.

Lemma transfer_events_no_attempt t :
  forallb transfer_event t = true ->
  attempts t = [] /\ count is_open t = 0%nat.
Proof.
  induction t as [|e t IH]; cbn; [auto|].
  intros H. apply andb_prop in H as [He Ht]. destruct (IH Ht) as [IA IO].
  destruct e as [[]|[]|[]]; cbn in *; try discriminate; auto.
Qed.

Lemma cleanup_events_silent t :
  forallb cleanup_event t = true ->
  written t = [] /\ attempts t = [] /\ count is_open t = 0%nat.
Proof.
  induction t as [|e t IH]; cbn; [auto|].
  intros H. apply andb_prop in H as [He Ht]. destruct (IH Ht) as (IW & IA & IO).
  destruct e as [[]|[]|[]]; cbn in *; try discriminate; auto.
Qed.

(** Two successive reads return one longer read. *)
Lemma firstn_chunks {A} (l : list A) a b :
  firstn a l ++ firstn b (skipn (length (firstn a l)) l) = firstn (a + b) l.
Proof.
  revert l. induction a as [|a IH]; intros l; cbn; [reflexivity|].
  destruct l as [|x l]; cbn.
  - rewrite firstn_nil. reflexivity.
  - rewrite IH. reflexivity.
Qed.

(** ** [transfer] when the channel takes every chunk *)

Lemma transfer_loop_copies w csv buf_size :
  1 <= buf_size ->
  (forall t n, w t (Read n) = None) ->
  (forall t, w t Flush = None) ->
  (forall t data, Z.of_nat (length data) <= buf_size -> w t (Write data) = None) ->
  forall fuel left st,
    left <= Z.of_nat fuel ->
    exists st' new,
      transfer_loop w csv fuel buf_size left st
        = (Returns (if left >? 0 then Some true else None), st') /\
      events st' = events st ++ new /\
      written new = firstn (Z.to_nat left) (skipn (csv_pos st) csv).
Proof.
  intros Hb Hr Hf Hw.
  induction fuel as [|fuel IH]; intros left st Hl.
  - cbn [transfer_loop]. replace (left >? 0) with false by (symmetry; lia).
    exists st, []. rewrite app_nil_r. repeat split.
    replace (Z.to_nat left) with 0%nat by lia. reflexivity.
  - destruct (Z_lt_le_dec 0 left) as [Hpos|Hneg].
    2:{ cbn [transfer_loop]. replace (left >? 0) with false by (symmetry; lia).
        exists st, []. rewrite app_nil_r. repeat split.
        replace (Z.to_nat left) with 0%nat by lia. reflexivity. }
    rewrite transfer_loop_step by exact Hpos. cbv zeta.
    replace (left >? 0) with true by (symmetry; lia).
    set (can_do := Z.min left buf_size).
    assert (Hc : 1 <= can_do <= left) by (unfold can_do; lia).
    set (data := chunk csv (csv_pos st) can_do).
    assert (Hdata : data = firstn (Z.to_nat can_do) (skipn (csv_pos st) csv)).
    { unfold data, chunk. replace (can_do <? 0) with false by (symmetry; lia).
      reflexivity. }
    assert (Hlen : Z.of_nat (length data) <= buf_size).
    { rewrite Hdata. pose proof (firstn_le_length (Z.to_nat can_do)
                                   (skipn (csv_pos st) csv)).
      unfold can_do in *. lia. }
    rewrite Hr, (Hw _ _ Hlen), Hf.
    destruct (left - can_do <=? 0) eqn:Elast.
    + eexists _, _. split; [reflexivity|]. cbn [events record set_pos].
      split; [rewrite <- !app_assoc; reflexivity|].
      cbn. rewrite app_nil_r, Hdata.
      replace can_do with left by lia. reflexivity.
    + match goal with
      | |- context [transfer_loop _ _ _ _ _ ?s] =>
          destruct (IH (left - can_do) s) as (st' & new & E & Ev & Wr); [lia|]
      end.
      rewrite E. replace (left - can_do >? 0) with true by (symmetry; lia).
      exists st', ([Did (Read can_do); Did (Write data); Did Flush] ++ new).
      split; [reflexivity|]. split.
      * rewrite Ev. cbn [events record set_pos]. rewrite <- !app_assoc.
        reflexivity.
      * cbn [written app]. rewrite Wr. cbn [csv_pos set_pos record].
        rewrite Nat.add_comm, <- skipn_skipn, Hdata, firstn_chunks.
        f_equal. lia.
Qed.

(** ** Attempts against a reader that gives up *)




(** ** Runs of the back-off loop *)

Lemma pow2_pos (p : nat) : 1 <= 2 ^ Z.of_nat p.
Proof.
  assert (0 < 2 ^ Z.of_nat p) by (apply Z.pow_pos_nonneg; lia). lia.
Qed.

(** What an attempt adds between the rewind and the end of [transfer]. *)
Lemma transfer_adds w csv file_size p st r st' :
  transfer w csv file_size (2 ^ Z.of_nat p) st = (r, st') ->
  exists new,
    events st' = events st ++ new /\
    forallb transfer_event new = true /\
    r <> Diverges /\
    tmpdir st' = tmpdir st /\ fifo_fname st' = fifo_fname st /\
    proc st' = proc st.
Proof.
  intros E.
  destruct (tame_transfer w csv file_size _ (pow2_pos p) st) as (new & H).
  rewrite E in H. exists new. exact H.
Qed.

(** An attempt that completes ends the loop. *)
Lemma backoff_loop_succeeds w csv file_size p st v st' :
  quiet channel_call w ->
  transfer w csv file_size (2 ^ Z.of_nat (S p)) (opened st) = (Returns v, st') ->
  backoff_loop w csv file_size (S p) st =
  (Returns tt, record (Did CloseFifo) (record (Said (PowerWorked (S p))) st')).
Proof.
  intros Hq E.
  rewrite backoff_loop_step, E by (apply Hq; reflexivity).
  unfold closing. rewrite Hq by reflexivity. reflexivity.
Qed.


Lemma failures_S p k : failures p (S k) = (S (p + k), false) :: failures p k.
Proof.
  unfold failures. rewrite seq_S, rev_app_distr. cbn. reflexivity.
Qed.


(** ** Whole runs of [create_import_sqlite] *)

Lemma import_body_started w csv file_size :
  quiet setup_call w ->
  import_body w csv file_size initial = backoff_loop w csv file_size 24 started.
Proof.
  intros Hq.
  unfold import_body, try_except_else, create_fifo, import_steps.
  set (loop := backoff_loop w csv file_size 24).
  rewrite bind_call, (Hq _ Mkdtemp eq_refl). cbn.
  rewrite bind_call_unit. cbn. rewrite (Hq _ Mkfifo eq_refl).
  rewrite bind_call. cbn. rewrite (Hq _ RunCreateTable eq_refl).
  rewrite bind_call. cbn. rewrite (Hq _ PopenImport eq_refl).
  reflexivity.
Qed.

(** The [finally] block only adds its own events. *)
Lemma finally_adds w csv file_size :
  exists new,
    events (snd (create_import_sqlite w csv file_size initial))
      = events (snd (import_body w csv file_size initial)) ++ new /\
    forallb cleanup_event new = true.
Proof.
  destruct (import_body_shape w csv file_size) as (r & st & E & D & _).
  destruct (tame_cleanup w st) as (new & En & Fn & _).
  exists new. split; [|exact Fn].
  unfold create_import_sqlite, try_finally. rewrite E.
  destruct r; try congruence; cbn [snd]; rewrite <- En;
    destruct (cleanup w st) as [[[]| |] ?]; reflexivity.
Qed.


(** C10.  With [file_info.file_size = 0] the copy loop of [transfer] is
    not entered: no event is added, nothing is written, and the value is
    [None], not [True].  The back-off loop (opening, rewinding and closing
    the channel not failing) nevertheless reports exponent 24 as the one
    that worked and ends after this single attempt without an error. *)
Theorem C10_empty_source_single_vacuous_attempt w csv st :
  (forall buf_size, transfer w csv 0 buf_size st = (Returns None, st)) /\
  (quiet channel_call w ->
   exists st',
     backoff_loop w csv 0 24 st = (Returns tt, st') /\
     events st' = events st ++
       [Did OpenFifo; Did Seek0; Said (PowerWorked 24); Did CloseFifo]).
Proof.
  split; [reflexivity|].
  intros Hq. eexists. split.
  - apply (backoff_loop_succeeds w csv 0 23 st None (opened st) Hq).
    reflexivity.
  - cbn. rewrite <- !app_assoc. reflexivity.
Qed.

Lemma C10_witness :
  exists st',
    backoff_loop calm [] 0 24 initial = (Returns tt, st') /\
    events st' = [Did OpenFifo; Did Seek0; Said (PowerWorked 24); Did CloseFifo].
Proof.
  apply (proj2 (C10_empty_source_single_vacuous_attempt calm [] initial)).
  intros t o _. reflexivity.
Defined.

(** C2.  If no write and no flush fails (nor any step leading up to
    them), a source of [total_length] bytes is transferred in exactly one
    attempt, the one at exponent 24: the channel is opened once, and the
    bytes written to it are the [total_length] bytes of the source, in
    order. *)
Theorem C2_single_attempt_copies_source w csv total_length :
  quiet before_close w ->
  total_length = Z.of_nat (length csv) ->
  let tr := events (snd (create_import_sqlite w csv total_length initial)) in
  attempts tr = [(24%nat, true)] /\
  count is_open tr = 1%nat /\
  written tr = csv /\
  Z.of_nat (length (written tr)) = total_length.
Proof.
  intros Hq -> tr.
  assert (Hs : quiet setup_call w).
  { intros t o H. apply Hq. unfold before_close. rewrite H. reflexivity. }
  assert (Hd : forall t o, data_call o = true -> w t o = None).
  { intros t o H. apply Hq. unfold before_close. rewrite H.
    rewrite orb_true_r. reflexivity. }
  destruct (transfer_loop_copies w csv (2 ^ Z.of_nat 24) (pow2_pos 24)
              (fun t n => Hd t (Read n) eq_refl)
              (fun t => Hd t Flush eq_refl)
              (fun t data _ => Hd t (Write data) eq_refl)
              (Z.to_nat (Z.of_nat (length csv))) (Z.of_nat (length csv))
              (opened started) ltac:(lia))
    as (st1 & tnew & Et & Ev & Wr).
  fold (transfer w csv (Z.of_nat (length csv)) (2 ^ Z.of_nat 24)) in Et.
  destruct (transfer_adds _ _ _ _ _ _ _ Et) as (tnew' & Ev' & Ft & _).
  rewrite Ev in Ev'. apply app_inv_head in Ev'. subst tnew'.
  destruct (transfer_events_no_attempt _ Ft) as [At Ot].
  cbn [csv_pos opened set_pos skipn] in Wr.
  rewrite Nat2Z.id, firstn_all in Wr.
  assert (Hbody : exists close,
             events (snd (import_body w csv (Z.of_nat (length csv)) initial))
               = events started ++ [Did OpenFifo; Did Seek0] ++ tnew
                   ++ [Said (PowerWorked 24); close] /\
             op_of close = Some CloseFifo).
  { rewrite (import_body_started _ _ _ Hs).
    rewrite backoff_loop_step by (apply Hq; reflexivity).
    rewrite Et. unfold closing. cbn [events record].
    destruct (w _ CloseFifo) as [e|]; cbn [snd events record]; rewrite Ev;
      cbn [events opened set_pos record]; rewrite <- !app_assoc;
      eexists; split; reflexivity. }
  destruct Hbody as (close & Eb & Hclose).
  destruct (finally_adds w csv (Z.of_nat (length csv))) as (fin & Ef & Ff).
  destruct (cleanup_events_silent _ Ff) as (Wf & Af & Of).
  assert (Hw : written tr = csv).
  { subst tr. rewrite Ef, Eb, !written_app, Wf, Wr.
    destruct close as [[]|[]|]; try discriminate Hclose; cbn;
      rewrite !app_nil_r; reflexivity. }
  repeat split.
  - subst tr. rewrite Ef, Eb, !attempts_app, Af, At.
    destruct close as [[]|[]|]; try discriminate Hclose; reflexivity.
  - subst tr. rewrite Ef, Eb, !count_app, Of, Ot.
    destruct close as [[]|[]|]; try discriminate Hclose; reflexivity.
  - exact Hw.
  - rewrite Hw. reflexivity.
Qed.

Lemma C2_witness :
  let tr := events (snd (create_import_sqlite calm abc 3 initial)) in
  attempts tr = [(24%nat, true)] /\
  count is_open tr = 1%nat /\
  written tr = abc /\
  Z.of_nat (length (written tr)) = 3.
Proof.
  apply (C2_single_attempt_copies_source calm abc 3).
  - intros t o _. reflexivity.
  - reflexivity.
Defined.










(** ** The ten-mebibyte example *)















(** ** The command line *)

Lemma ArgumentParser_error_returns message st :
  ArgumentParser_error message st =
  (Returns tt, record (Said Help) (record (Said (ErrorLine message)) st)).
Proof. reflexivity. Qed.

(** [main] without an archive path, spelled out. *)
Lemma main_no_archive w args st :
  truthy (zip_file args) = false ->
  main w args st =
  match name_filter args with
  | Some pattern =>
      if truthy (Some pattern) then
        match w (events st) (ReCompile pattern) with
        | None =>
            (Returns tt, record (Said Help) (record (Did (ReCompile pattern)) st))
        | Some e => (Raises e, record (Failed (ReCompile pattern) e) st)
        end
      else (Returns tt, record (Said Help) st)
  | None => (Returns tt, record (Said Help) st)
  end.
Proof.
  intros Hz. unfold main. rewrite Hz.
  destruct (name_filter args) as [pattern|]; [|reflexivity].
  destruct (truthy (Some pattern)); [|reflexivity].
  unfold bind, call. destruct (w (events st) (ReCompile pattern)); reflexivity.
Qed.

(** C9 (as amended).  Without an archive path the program never calls
    [zip_walker], does no import work, and ends normally.  It prints the
    usage text, as the last thing it does, provided the filter pattern (if
    one is given) compiles.  When [re.compile] rejects the pattern, the
    exception leaves [main] before [print_help] is reached, and the
    handler under [__main__] prints the exception instead. *)
Theorem C9_no_archive_no_work w args st :
  truthy (zip_file args) = false ->
  (fst (program w args st) = Returns tt /\
   exists new,
     events (snd (program w args st)) = events st ++ new /\
     forallb cli_event new = true) /\
  (filter_compiles w args st ->
   exists new,
     program w args st = main w args st /\
     fst (main w args st) = Returns tt /\
     events (snd (main w args st)) = events st ++ new ++ [Said Help]) /\
  (forall pattern e,
     name_filter args = Some pattern -> truthy (Some pattern) = true ->
     w (events st) (ReCompile pattern) = Some e ->
     main w args st = (Raises e, record (Failed (ReCompile pattern) e) st) /\
     program w args st =
       (Returns tt,
        record (Said (Printed e)) (record (Failed (ReCompile pattern) e) st))).
Proof.
  intros Hz. unfold program, try_except, filter_compiles.
  rewrite (main_no_archive w args st Hz).
  destruct (name_filter args) as [pattern|] eqn:En.
  2:{ cbn. split; [split; [reflexivity|]|split].
      - exists [Said Help]. split; reflexivity.
      - intros _. exists []. repeat split.
      - intros pattern e H. discriminate H. }
  destruct (truthy (Some pattern)) eqn:Et.
  2:{ cbn [fst snd events record]. split; [split; [reflexivity|]|split].
      - exists [Said Help]. split; reflexivity.
      - intros _. exists []. repeat split.
      - intros p e H Hp. inversion H; subst. congruence. }
  destruct (w (events st) (ReCompile pattern)) as [e|] eqn:Ew.
  - cbn [fst snd events record say]. split; [split; [reflexivity|]|split].
    + exists [Failed (ReCompile pattern) e; Said (Printed e)].
      rewrite <- app_assoc. split; reflexivity.
    + intros Hc. rewrite (Hc pattern eq_refl Et) in Ew. discriminate Ew.
    + intros p e' H Hp Hw. inversion H; subst. rewrite Ew in Hw.
      inversion Hw; subst. split; reflexivity.
  - cbn [fst snd events record]. split; [split; [reflexivity|]|split].
    + exists [Did (ReCompile pattern); Said Help].
      rewrite <- app_assoc. split; reflexivity.
    + intros _. exists [Did (ReCompile pattern)]. rewrite <- !app_assoc.
      repeat split.
    + intros p e' H Hp Hw. inversion H; subst. rewrite Ew in Hw.
      discriminate Hw.
Qed.

Lemma C9_witness :
  exists new,
    program calm no_arguments initial = main calm no_arguments initial /\
    fst (main calm no_arguments initial) = Returns tt /\
    events (snd (main calm no_arguments initial)) = [] ++ new ++ [Said Help].
Proof.
  apply (C9_no_archive_no_work calm no_arguments initial).
  - reflexivity.
  - intros pattern H. discriminate H.
Defined.

(** C9 as stated fails.  With [--filter "("] and no archive path,
    [re.compile] raises before [print_help] is reached: the run consists
    of the failed compilation and the printing of the exception, and the
    usage text is never printed. *)
Lemma C9_counterexample :
  truthy (zip_file only_bad_filter) = false /\
  events (snd (program rejects_pattern only_bad_filter initial)) =
    [Failed (ReCompile "("%string) re_error; Said (Printed re_error)] /\
  ~ In (Said Help)
       (events (snd (program rejects_pattern only_bad_filter initial))).
Proof.
  split; [reflexivity|]. split; [reflexivity|].
  cbn. intros [H|[H|[]]]; discriminate H.
Qed.

(** ** The fuel of [transfer] is enough *)

(** With a positive chunk size, any fuel that covers what is left gives
    the same run: the bound chosen in [transfer] loses nothing. *)
Lemma transfer_loop_fuel w csv buf_size :
  1 <= buf_size ->
  forall fuel fuel' left st,
    left <= Z.of_nat fuel -> left <= Z.of_nat fuel' ->
    transfer_loop w csv fuel buf_size left st
      = transfer_loop w csv fuel' buf_size left st.
Proof.
  intros Hb. induction fuel as [|fuel IH]; intros fuel' left st Hl Hl'.
  - destruct fuel'; cbn [transfer_loop];
      replace (left >? 0) with false by (symmetry; lia); reflexivity.
  - destruct (Z_lt_le_dec 0 left) as [Hpos|Hneg].
    + destruct fuel' as [|fuel']; [lia|].
      rewrite !transfer_loop_step by exact Hpos. cbv zeta.
      destruct (w _ (Read _)); [reflexivity|].
      destruct (w _ (Write _)); [reflexivity|].
      destruct (w _ Flush); [reflexivity|].
      destruct (_ <=? 0); [reflexivity|].
      apply IH; lia.
    + destruct fuel'; cbn [transfer_loop];
        replace (left >? 0) with false by (symmetry; lia); reflexivity.
Qed.

(** [transfer] always finishes when called by the back-off loop. *)
Lemma transfer_terminates w csv file_size p st :
  fst (transfer w csv file_size (2 ^ Z.of_nat p) st) <> Diverges.
Proof.
  destruct (tame_transfer w csv file_size _ (pow2_pos p) st) as (_ & _ & _ & D & _).
  exact D.
Qed.

(** [create_import_sqlite] always finishes. *)
Lemma create_import_sqlite_terminates w csv file_size :
  fst (create_import_sqlite w csv file_size initial) <> Diverges.
Proof.
  destruct (import_body_shape w csv file_size) as (r & st & E & D & _).
  destruct (tame_cleanup w st) as (new & _ & _ & Dc & _).
  unfold create_import_sqlite, try_finally. rewrite E.
  destruct r; try congruence;
    destruct (cleanup w st) as [[[]| |] ?]; cbn in *; congruence.
Qed.

(** ** The loader is always asked to quit *)

(** Once the loader has been started and the source has been closed, the
    [finally] block always writes [.quit] to the loader, whatever the
    transfer loop did. *)
Lemma quit_written_once_loader_started w csv file_size :
  let tr := events (snd (create_import_sqlite w csv file_size initial)) in
  In (Did PopenImport) tr -> In (Did CsvClose) tr ->
  In (Did QuitWrite) tr \/ exists e, In (Failed QuitWrite e) tr.
Proof.
  intros tr Hstart Hclose. subst tr.
  destruct (import_body_shape w csv file_size) as (r & st & E & D & Fb & Lb & _).
  destruct (tame_cleanup w st) as (new & En & Fn & _).
  assert (Hevs : events (snd (create_import_sqlite w csv file_size initial))
                 = events (snd (cleanup w st))).
  { unfold create_import_sqlite, try_finally. rewrite E.
    destruct r; try congruence; destruct (cleanup w st) as [[[]| |] ?];
      reflexivity. }
  rewrite Hevs in *. clear Hevs.
  assert (Hp : proc st = true).
  { rewrite En in Hstart. apply in_app_or in Hstart as [H|H]; [apply Lb, H|].
    rewrite forallb_forall in Fn. specialize (Fn _ H). discriminate. }
  assert (Hnb : ~ In (Did CsvClose) (events st)).
  { intros H. rewrite forallb_forall in Fb. specialize (Fb _ H). discriminate. }
  clear En Fn new.
  revert Hclose. unfold cleanup, bind, call, local, when, ret, record.
  cbn [events proc fifo_fname tmpdir]. rewrite Hp.
  repeat (cbn [events proc fifo_fname tmpdir];
          match goal with
          | |- context [w ?t ?o] => destruct (w t o)
          | |- context [fifo_fname st] => destruct (fifo_fname st)
          | |- context [tmpdir st] => destruct (tmpdir st)
          end).
  all: cbn [events snd]; rewrite ?in_app_iff; cbn [In]; intros Hc.
  all: first
         [ solve [left; tauto]
         | solve [right; eexists; rewrite ?in_app_iff; cbn [In]; eauto 10]
         | solve [exfalso; intuition discriminate] ].
Qed.

(** * More about [transfer] *)

Lemma transfer_loop_writes_prefix w csv buf_size :
  1 <= buf_size ->
  forall fuel left st,
    left <= Z.of_nat fuel ->
    exists new k,
      events (snd (transfer_loop w csv fuel buf_size left st)) = events st ++ new /\
      (k <= Z.to_nat left)%nat /\
      written new = firstn k (skipn (csv_pos st) csv).
Proof.
  intros Hb. induction fuel as [|fuel IH]; intros left st Hl.
  - cbn [transfer_loop]. replace (left >? 0) with false by (symmetry; lia).
    exists [], 0%nat. cbn. rewrite app_nil_r. repeat split; lia.
  - destruct (Z_lt_le_dec 0 left) as [Hpos|Hneg].
    2:{ cbn [transfer_loop]. replace (left >? 0) with false by (symmetry; lia).
        exists [], 0%nat. cbn. rewrite app_nil_r. repeat split; lia. }
    rewrite transfer_loop_step by exact Hpos. cbv zeta.
    set (can_do := Z.min left buf_size).
    assert (Hc : 1 <= can_do <= left) by (unfold can_do; lia).
    set (data := chunk csv (csv_pos st) can_do).
    assert (Hdata : data = firstn (Z.to_nat can_do) (skipn (csv_pos st) csv)).
    { unfold data, chunk. replace (can_do <? 0) with false by (symmetry; lia).
      reflexivity. }
    destruct (w (events st) (Read can_do)) as [e|].
    { unfold failing. destruct (is_BrokenPipeError e);
        eexists _, 0%nat; cbn [snd events record];
        (split; [rewrite <- ?app_assoc; reflexivity|]); split; auto; lia. }
    destruct (w _ (Write data)) as [e|].
    { unfold failing. destruct (is_BrokenPipeError e);
        eexists _, 0%nat; cbn [snd events record set_pos];
        (split; [rewrite <- ?app_assoc; reflexivity|]); split; auto; lia. }
    destruct (w _ Flush) as [e|].
    { unfold failing. destruct (is_BrokenPipeError e);
        eexists _, (Z.to_nat can_do); cbn [snd events record set_pos];
        (split; [rewrite <- ?app_assoc; reflexivity|]);
        (split; [lia|]); cbn; rewrite app_nil_r; exact Hdata. }
    destruct (left - can_do <=? 0) eqn:Elast.
    + eexists _, (Z.to_nat can_do). cbn [snd events record set_pos].
      split; [rewrite <- ?app_assoc; reflexivity|]. split; [lia|].
      cbn. rewrite app_nil_r. exact Hdata.
    + match goal with
      | |- context [transfer_loop _ _ _ _ _ ?s] =>
          destruct (IH (left - can_do) s) as (new & k & Ev & Hk & Wr); [lia|]
      end.
      exists ([Did (Read can_do); Did (Write data); Did Flush] ++ new),
             (Z.to_nat can_do + k)%nat.
      split; [|split; [lia|]].
      * rewrite Ev. cbn [events record set_pos]. rewrite <- !app_assoc.
        reflexivity.
      * cbn [written app]. rewrite Wr. cbn [csv_pos set_pos record].
        rewrite Nat.add_comm, <- skipn_skipn, Hdata, firstn_chunks.
        reflexivity.
Qed.

(** Whatever the environment does, the bytes one call of [transfer]
    gets written are a prefix of the source from the offset where it
    started, no longer than [file_size]. *)
Theorem transfer_writes_prefix w csv file_size buf_size st :
  1 <= buf_size ->
  exists new k,
    events (snd (transfer w csv file_size buf_size st)) = events st ++ new /\
    (k <= Z.to_nat file_size)%nat /\
    written new = firstn k (skipn (csv_pos st) csv).
Proof.
  intros Hb. unfold transfer. apply transfer_loop_writes_prefix; [exact Hb|lia].
Qed.

Lemma transfer_writes_prefix_witness :
  exists new k,
    events (snd (transfer broken_pipe abc 3 2 initial)) = [] ++ new /\
    (k <= Z.to_nat 3)%nat /\
    written new = firstn k (skipn 0 abc).
Proof. apply (transfer_writes_prefix broken_pipe abc 3 2 initial). lia. Defined.

(** [transfer] believes [file_info.file_size], not the stream: when
    nothing fails it sends the first [file_size] bytes of the source and
    returns [True]; a longer source is cut off there, a shorter one is
    sent whole and still reported as done. *)
Theorem transfer_trusts_file_size w csv file_size buf_size st :
  1 <= buf_size -> quiet data_call w -> 0 < file_size -> csv_pos st = 0%nat ->
  exists st' new,
    transfer w csv file_size buf_size st = (Returns (Some true), st') /\
    events st' = events st ++ new /\
    written new = firstn (Z.to_nat file_size) csv /\
    (file_size <= Z.of_nat (length csv) ->
     Z.of_nat (length (written new)) = file_size) /\
    (Z.of_nat (length csv) <= file_size -> written new = csv).
Proof.
  intros Hb Hq Hf Hp.
  destruct (transfer_loop_copies w csv buf_size Hb
              (fun t n => Hq t (Read n) eq_refl)
              (fun t => Hq t Flush eq_refl)
              (fun t data _ => Hq t (Write data) eq_refl)
              (Z.to_nat file_size) file_size st ltac:(lia))
    as (st' & new & E & Ev & Wr).
  replace (file_size >? 0) with true in E by (symmetry; lia).
  rewrite Hp in Wr. cbn [skipn] in Wr.
  exists st', new. repeat split; try assumption.
  - intros Hle. rewrite Wr, length_firstn. lia.
  - intros Hge. rewrite Wr. apply firstn_all2. lia.
Qed.

Lemma transfer_trusts_file_size_witness :
  exists st' new,
    transfer calm abc 2 16 initial = (Returns (Some true), st') /\
    events st' = [] ++ new /\
    written new = firstn (Z.to_nat 2) abc /\
    (2 <= Z.of_nat (length abc) -> Z.of_nat (length (written new)) = 2) /\
    (Z.of_nat (length abc) <= 2 -> written new = abc).
Proof.
  apply (transfer_trusts_file_size calm abc 2 16 initial);
    try reflexivity; try lia.
  intros t o _. reflexivity.
Defined.

Lemma transfer_loop_within_chunk w csv buf_size :
  1 <= buf_size ->
  forall fuel left st,
    left <= Z.of_nat fuel ->
    exists new,
      events (snd (transfer_loop w csv fuel buf_size left st)) = events st ++ new /\
      forallb (within_chunk buf_size) new = true.
Proof.
  intros Hb. induction fuel as [|fuel IH]; intros left st Hl.
  - cbn [transfer_loop]. replace (left >? 0) with false by (symmetry; lia).
    exists []. cbn. rewrite app_nil_r. auto.
  - destruct (Z_lt_le_dec 0 left) as [Hpos|Hneg].
    2:{ cbn [transfer_loop]. replace (left >? 0) with false by (symmetry; lia).
        exists []. cbn. rewrite app_nil_r. auto. }
    rewrite transfer_loop_step by exact Hpos. cbv zeta.
    set (can_do := Z.min left buf_size).
    assert (Hc : 1 <= can_do <= buf_size) by (unfold can_do; lia).
    set (data := chunk csv (csv_pos st) can_do).
    assert (Hlen : Z.of_nat (length data) <= buf_size).
    { unfold data, chunk. replace (can_do <? 0) with false by (symmetry; lia).
      pose proof (firstn_le_length (Z.to_nat can_do) (skipn (csv_pos st) csv)).
      lia. }
    assert (Hr : ((1 <=? can_do) && (can_do <=? buf_size))%bool = true).
    { apply andb_true_intro. split; lia. }
    assert (Hw : (Z.of_nat (length data) <=? buf_size) = true) by lia.
    destruct (w (events st) (Read can_do)) as [e|].
    { unfold failing. destruct (is_BrokenPipeError e);
        eexists; cbn [snd events record];
        (split; [rewrite <- ?app_assoc; reflexivity|]); cbn; rewrite Hr; auto. }
    destruct (w _ (Write data)) as [e|].
    { unfold failing. destruct (is_BrokenPipeError e);
        eexists; cbn [snd events record set_pos];
        (split; [rewrite <- ?app_assoc; reflexivity|]); cbn; rewrite Hr, Hw;
        auto. }
    destruct (w _ Flush) as [e|].
    { unfold failing. destruct (is_BrokenPipeError e);
        eexists; cbn [snd events record set_pos];
        (split; [rewrite <- ?app_assoc; reflexivity|]); cbn; rewrite Hr, Hw;
        auto. }
    destruct (left - can_do <=? 0) eqn:Elast.
    + eexists. cbn [snd events record set_pos].
      split; [rewrite <- ?app_assoc; reflexivity|]. cbn. rewrite Hr, Hw. auto.
    + match goal with
      | |- context [transfer_loop _ _ _ _ _ ?s] =>
          destruct (IH (left - can_do) s) as (new & Ev & Fn); [lia|]
      end.
      exists ([Did (Read can_do); Did (Write data); Did Flush] ++ new).
      split.
      * rewrite Ev. cbn [events record set_pos]. rewrite <- !app_assoc.
        reflexivity.
      * cbn. rewrite Hr, Hw, Fn. reflexivity.
Qed.

(** No read asks for, and no write carries, more than [buf_size] bytes. *)
Theorem transfer_within_chunk w csv file_size buf_size st :
  1 <= buf_size ->
  exists new,
    events (snd (transfer w csv file_size buf_size st)) = events st ++ new /\
    forallb (within_chunk buf_size) new = true.
Proof.
  intros Hb. unfold transfer. apply transfer_loop_within_chunk; [exact Hb|lia].
Qed.

Lemma transfer_within_chunk_witness :
  exists new,
    events (snd (transfer calm abc 3 2 initial)) = [] ++ new /\
    forallb (within_chunk 2) new = true.
Proof. apply (transfer_within_chunk calm abc 3 2 initial). lia. Defined.

(** With a chunk size of zero or less and something to send, the copy
    loop never ends when nothing fails: no amount of fuel is enough. *)
Theorem transfer_loop_never_ends w csv buf_size :
  buf_size <= 0 -> quiet data_call w ->
  forall fuel left st,
    0 < left ->
    fst (transfer_loop w csv fuel buf_size left st) = Diverges.
Proof.
  intros Hb Hq. induction fuel as [|fuel IH]; intros left st Hl.
  - cbn [transfer_loop]. replace (left >? 0) with true by (symmetry; lia).
    reflexivity.
  - rewrite transfer_loop_step by exact Hl. cbv zeta.
    rewrite (Hq _ (Read _) eq_refl), (Hq _ (Write _) eq_refl),
      (Hq _ Flush eq_refl).
    replace (left - Z.min left buf_size <=? 0) with false by (symmetry; lia).
    apply IH. lia.
Qed.

Lemma transfer_loop_never_ends_witness :
  fst (transfer_loop calm abc 5 0 3 initial) = Diverges.
Proof.
  apply (transfer_loop_never_ends calm abc 0); try lia.
  intros t o _. reflexivity.
Defined.

Lemma transfer_loop_chunks w csv buf_size :
  1 <= buf_size -> quiet data_call w ->
  forall fuel left st,
    0 <= left <= Z.of_nat fuel ->
    exists new,
      events (snd (transfer_loop w csv fuel buf_size left st)) = events st ++ new /\
      Z.of_nat (count is_write_done new) = (left + buf_size - 1) / buf_size /\
      count is_flush_done new = count is_write_done new.
Proof.
  intros Hb Hq. induction fuel as [|fuel IH]; intros left st Hl.
  - assert (left = 0) as -> by lia. cbn [transfer_loop]. cbn.
    exists []. rewrite app_nil_r. repeat split.
    rewrite Z.div_small by lia. reflexivity.
  - destruct (Z_lt_le_dec 0 left) as [Hpos|Hneg].
    2:{ assert (left = 0) as -> by lia. cbn [transfer_loop]. cbn.
        exists []. rewrite app_nil_r. repeat split.
        rewrite Z.div_small by lia. reflexivity. }
    rewrite transfer_loop_step by exact Hpos. cbv zeta.
    rewrite (Hq _ (Read _) eq_refl), (Hq _ (Write _) eq_refl),
      (Hq _ Flush eq_refl).
    destruct (left - Z.min left buf_size <=? 0) eqn:Elast.
    + eexists. cbn [snd events record set_pos].
      split; [rewrite <- ?app_assoc; reflexivity|]. cbn. split; [|reflexivity].
      assert (left <= buf_size) by lia.
      apply Z.div_unique with (r := left - 1); lia.
    + match goal with
      | |- context [transfer_loop _ _ _ _ _ ?s] =>
          destruct (IH (left - Z.min left buf_size) s) as (new & Ev & Cw & Cf);
            [lia|]
      end.
      eexists (_ :: _ :: _ :: new). split.
      * rewrite Ev. cbn [events record set_pos]. rewrite <- !app_assoc.
        reflexivity.
      * unfold count in *. cbn [filter is_write_done is_flush_done length].
        split; [|lia].
        assert (Hm : Z.min left buf_size = buf_size) by lia.
        rewrite Hm in Cw.
        replace (left + buf_size - 1) with ((left - buf_size + buf_size - 1) + 1 * buf_size) by lia.
        rewrite Z.div_add by lia. lia.
Qed.

(** When nothing fails, [transfer] makes as many writes, each followed by
    its flush, as there are chunks of [buf_size] bytes in [file_size],
    the last one possibly short. *)
Theorem transfer_chunk_count w csv file_size buf_size st :
  1 <= buf_size -> quiet data_call w -> 0 <= file_size ->
  exists new,
    events (snd (transfer w csv file_size buf_size st)) = events st ++ new /\
    Z.of_nat (count is_write_done new) = (file_size + buf_size - 1) / buf_size /\
    count is_flush_done new = count is_write_done new.
Proof.
  intros Hb Hq Hf. unfold transfer. apply transfer_loop_chunks; auto. lia.
Qed.

Lemma transfer_chunk_count_witness :
  exists new,
    events (snd (transfer calm abc 3 2 initial)) = [] ++ new /\
    Z.of_nat (count is_write_done new) = (3 + 2 - 1) / 2 /\
    count is_flush_done new = count is_write_done new.
Proof.
  apply (transfer_chunk_count calm abc 3 2 initial); try lia.
  intros t o _. reflexivity.
Defined.

Lemma transfer_loop_raises w csv buf_size fuel :
  forall left st e st',
    transfer_loop w csv fuel buf_size left st = (Raises e, st') ->
    exists before o,
      data_call o = true /\
      events st' = before ++ Failed o e ::
        (if is_BrokenPipeError e then [Said (FailedOnBufSize buf_size)] else []).
Proof.
  induction fuel as [|fuel IH]; intros left st e st' E.
  - cbn [transfer_loop] in E. destruct (left >? 0); discriminate E.
  - destruct (Z_lt_le_dec 0 left) as [Hpos|Hneg].
    2:{ cbn [transfer_loop] in E.
        replace (left >? 0) with false in E by (symmetry; lia). discriminate E. }
    rewrite transfer_loop_step in E by exact Hpos. cbv zeta in E.
    unfold failing in E.
    destruct (w (events st) (Read _)) as [e1|].
    { inversion E; subst. exists (events st), (Read (Z.min left buf_size)).
      split; [reflexivity|].
      destruct (is_BrokenPipeError e); cbn [events record];
        rewrite <- ?app_assoc; reflexivity. }
    destruct (w _ (Write _)) as [e1|].
    { inversion E; subst.
      exists (events st ++ [Did (Read (Z.min left buf_size))]),
             (Write (chunk csv (csv_pos st) (Z.min left buf_size))).
      split; [reflexivity|].
      destruct (is_BrokenPipeError e); cbn [events record set_pos];
        rewrite <- ?app_assoc; reflexivity. }
    destruct (w _ Flush) as [e1|].
    { inversion E; subst.
      exists (events st ++ [Did (Read (Z.min left buf_size));
                            Did (Write (chunk csv (csv_pos st)
                                          (Z.min left buf_size)))]), Flush.
      split; [reflexivity|].
      destruct (is_BrokenPipeError e); cbn [events record set_pos];
        rewrite <- ?app_assoc; reflexivity. }
    destruct (_ <=? 0); [discriminate E|].
    apply (IH _ _ _ _ E).
Qed.

(** When [transfer] raises, the exception is the one of the read, write
    or flush that failed, and the line [Failed on buf_size] is printed
    exactly for a broken pipe. *)
Theorem transfer_raises_what_failed w csv file_size buf_size st e st' :
  transfer w csv file_size buf_size st = (Raises e, st') ->
  exists before o,
    data_call o = true /\
    events st' = before ++ Failed o e ::
      (if is_BrokenPipeError e then [Said (FailedOnBufSize buf_size)] else []).
Proof. apply transfer_loop_raises. Qed.

Lemma transfer_raises_what_failed_witness :
  exists before o,
    data_call o = true /\
    events (snd (transfer broken_pipe abc 3 2 initial)) =
      before ++ Failed o BrokenPipeError :: [Said (FailedOnBufSize 2)].
Proof.
  apply (transfer_raises_what_failed broken_pipe abc 3 2 initial
           BrokenPipeError). reflexivity.
Defined.


(** * More about the back-off loop *)

(** One iteration of the loop, in any environment. *)
Lemma backoff_loop_iteration w csv file_size p st :
  backoff_loop w csv file_size (S p) st =
  match w (events st) OpenFifo with
  | Some e => (Raises e, record (Failed OpenFifo e) st)
  | None =>
      match w (events st ++ [Did OpenFifo]) Seek0 with
      | Some e =>
          closing w (record (Failed Seek0 e) (record (Did OpenFifo) st))
            (fun st' => (Raises e, st'))
      | None =>
          match transfer w csv file_size (2 ^ Z.of_nat (S p)) (opened st) with
          | (Returns _, st') =>
              closing w (record (Said (PowerWorked (S p))) st')
                (fun st'' => (Returns tt, st''))
          | (Raises e, st') =>
              if is_BrokenPipeError e
              then closing w (record (Said (PowerFailed (S p))) st')
                     (backoff_loop w csv file_size p)
              else closing w st' (fun st'' => (Raises e, st''))
          | (Diverges, st') => (Diverges, st')
          end
      end
  end.
Proof.
  destruct (w (events st) OpenFifo) as [e|] eqn:Ho.
  { cbn [backoff_loop]. unfold with_open_fifo. unfold bind at 1.
    rewrite bind_call, Ho. reflexivity. }
  destruct (w (events st ++ [Did OpenFifo]) Seek0) as [e|] eqn:Hs.
  { cbn [backoff_loop]. unfold with_open_fifo. unfold bind at 1.
    rewrite bind_call, Ho. unfold try_finally, bind at 1, csv_seek0.
    cbn [events record]. rewrite Hs. unfold closing, call.
    cbn [events record]. destruct (w _ CloseFifo); reflexivity. }
  apply backoff_loop_step; assumption.
Qed.

Lemma transfer_events_no_channel t :
  forallb transfer_event t = true ->
  count is_open_done t = 0%nat /\ count is_close t = 0%nat.
Proof.
  induction t as [|e t IH]; cbn; [auto|].
  intros H. apply andb_prop in H as [He Ht]. destruct (IH Ht) as [IO IC].
  destruct e as [[]|[]|[]]; cbn in *; try discriminate; auto.
Qed.

(** What [closing] adds: one closing event, then what [after] adds. *)
Lemma closing_events {A} w st (after : state -> outcome A * state) :
  exists c,
    is_close c = true /\ attempts [c] = [] /\ written [c] = [] /\
    is_open_done c = false /\
    ((c = Did CloseFifo /\
      closing w st after = after (record (Did CloseFifo) st)) \/
     (exists e, c = Failed CloseFifo e /\
        closing w st after = (Raises e, record (Failed CloseFifo e) st))).
Proof.
  unfold closing. destruct (w (events st) CloseFifo) as [e|].
  - exists (Failed CloseFifo e). repeat split. right. eauto.
  - exists (Did CloseFifo). repeat split. left. auto.
Qed.

(** Everything a run of the loop shows, in any environment. *)
Lemma backoff_loop_run w csv file_size p :
  forall st, exists new q k tail ks,
    events (snd (backoff_loop w csv file_size p st)) = events st ++ new /\
    p = (q + k)%nat /\
    attempts new = failures q k ++ tail /\
    (tail = [] \/ (tail = [(q, true)] /\ (1 <= q)%nat)) /\
    (fst (backoff_loop w csv file_size p st) = Returns tt ->
     (q = 0%nat /\ tail = []) \/ tail = [(q, true)]) /\
    count is_open_done new = count is_close new /\
    written new = concat (map (fun n => firstn n csv) ks) /\
    (length ks <= count is_open_done new)%nat /\
    Forall (fun n => (n <= Z.to_nat file_size)%nat) ks.
Proof.
  induction p as [|p IH]; intros st.
  { exists [], 0%nat, 0%nat, [], []. cbn. rewrite ?app_nil_r.
    repeat split; auto. }
  rewrite backoff_loop_iteration.
  destruct (w (events st) OpenFifo) as [e|].
  { exists [Failed OpenFifo e], (S p), 0%nat, [], []. cbn.
    rewrite Nat.add_0_r. repeat split; auto. intros H; discriminate H. }
  destruct (w (events st ++ [Did OpenFifo]) Seek0) as [e|].
  { destruct (closing_events w (record (Failed Seek0 e) (record (Did OpenFifo) st))
                (fun st' => (@Raises unit e, st')))
      as (c & Hc & _ & Hw & Hn & [[-> ->]|(e' & -> & ->)]).
    - exists [Did OpenFifo; Failed Seek0 e; Did CloseFifo], (S p), 0%nat, [], [].
      cbn. rewrite Nat.add_0_r, <- !app_assoc.
      repeat split; auto. intros H; discriminate H.
    - exists [Did OpenFifo; Failed Seek0 e; Failed CloseFifo e'], (S p), 0%nat, [], [].
      cbn. rewrite Nat.add_0_r, <- !app_assoc.
      repeat split; auto. intros H; discriminate H. }
  destruct (transfer w csv file_size (2 ^ Z.of_nat (S p)) (opened st))
    as [r st1] eqn:Et.
  destruct (transfer_adds _ _ _ _ _ _ _ Et) as (tnew & Ev1 & Ft & _).
  destruct (transfer_events_no_attempt _ Ft) as [At _].
  destruct (transfer_events_no_channel _ Ft) as [Ot Ct].
  destruct (transfer_writes_prefix w csv file_size (2 ^ Z.of_nat (S p))
              (opened st) (pow2_pos (S p))) as (tnew' & n & Ev1' & Hn & Wt).
  rewrite Et in Ev1'. cbn [snd] in Ev1'. rewrite Ev1 in Ev1'.
  apply app_inv_head in Ev1'. subst tnew'.
  cbn [csv_pos opened set_pos skipn] in Wt.
  assert (Eop : events st1 = events st ++ [Did OpenFifo; Did Seek0] ++ tnew).
  { rewrite Ev1. cbn [events opened set_pos record]. rewrite <- !app_assoc.
    reflexivity. }
  destruct r as [v|e|].
  - (* the attempt worked *)
    destruct (closing_events w (record (Said (PowerWorked (S p))) st1)
                (fun st'' => (Returns tt, st'')))
      as (c & Hc & Ha & Hw & Hno & Hcase).
    exists ([Did OpenFifo; Did Seek0] ++ tnew ++ [Said (PowerWorked (S p)); c]),
      (S p), 0%nat, [(S p, true)], [n].
    assert (Hev : events (snd (closing w (record (Said (PowerWorked (S p))) st1)
                                 (fun st'' => (Returns tt, st''))))
                  = events st ++ [Did OpenFifo; Did Seek0] ++ tnew
                      ++ [Said (PowerWorked (S p)); c]).
    { destruct Hcase as [[-> ->]|(e' & -> & ->)]; cbn [snd events record];
        rewrite Eop, <- !app_assoc; reflexivity. }
    rewrite Hev. split; [reflexivity|].
    split; [lia|].
    split; [rewrite !attempts_app, At; cbn;
            destruct c as [|?|[]]; try discriminate Ha; reflexivity|].
    split; [right; split; [reflexivity|lia]|].
    split; [intros _; right; reflexivity|].
    split; [rewrite !count_app, Ot, Ct; unfold count; cbn; rewrite Hc, Hno;
            reflexivity|].
    split; [rewrite !written_app, Wt; cbn;
            destruct c as [[]|[]|]; try discriminate Hc; cbn;
            rewrite ?app_nil_r; reflexivity|].
    split; [rewrite !count_app; unfold count; cbn; lia|].
    repeat constructor. exact Hn.
  - destruct (is_BrokenPipeError e) eqn:Eb.
    + (* broken pipe: report, close, go on *)
      destruct (closing_events w (record (Said (PowerFailed (S p))) st1)
                  (backoff_loop w csv file_size p))
        as (c & Hc & Ha & Hw & Hno & [[-> ->]|(e' & -> & ->)]).
      * match goal with
        | |- context [backoff_loop _ _ _ p ?s] =>
            destruct (IH s) as (new & q & k & tail & ks & Ev & Hp & Hat & Ht
                                & Hr & Hoc & Hwr & Hl & Hf)
        end.
        exists ([Did OpenFifo; Did Seek0] ++ tnew
                  ++ [Said (PowerFailed (S p)); Did CloseFifo] ++ new),
          q, (S k), tail, (n :: ks).
        split; [rewrite Ev; cbn [events record]; rewrite Eop, <- !app_assoc;
                reflexivity|].
        split; [lia|].
        split; [rewrite !attempts_app, At, Hat, failures_S; cbn;
                replace (q + k)%nat with p by lia; reflexivity|].
        split; [exact Ht|]. split; [exact Hr|].
        split; [rewrite !count_app, Ot, Ct, Hoc; unfold count; cbn; lia|].
        split; [rewrite !written_app, Wt, Hwr; cbn; rewrite ?app_nil_r;
                reflexivity|].
        split; [rewrite !count_app; unfold count in *; cbn in *; lia|].
        constructor; assumption.
      * exists ([Did OpenFifo; Did Seek0] ++ tnew
                  ++ [Said (PowerFailed (S p)); Failed CloseFifo e']),
          p, 1%nat, [], [n].
        split; [cbn [snd events record]; rewrite Eop, <- !app_assoc;
                reflexivity|].
        split; [lia|].
        split; [rewrite !attempts_app, At; cbn; unfold failures; cbn;
                rewrite ?app_nil_r; reflexivity|].
        split; [left; reflexivity|].
        split; [intros H; discriminate H|].
        split; [rewrite !count_app, Ot, Ct; reflexivity|].
        split; [rewrite !written_app, Wt; cbn; rewrite ?app_nil_r;
                reflexivity|].
        split; [rewrite !count_app; unfold count; cbn; lia|].
        repeat constructor. exact Hn.
    + (* any other exception leaves the loop *)
      destruct (closing_events w st1 (fun st'' => (@Raises unit e, st'')))
        as (c & Hc & Ha & Hw & Hno & Hcase).
      exists ([Did OpenFifo; Did Seek0] ++ tnew ++ [c]), (S p), 0%nat, [], [n].
      assert (Hev : events (snd (closing w st1 (fun st'' => (@Raises unit e, st''))))
                    = events st ++ [Did OpenFifo; Did Seek0] ++ tnew ++ [c]
                /\ fst (closing w st1 (fun st'' => (@Raises unit e, st'')))
                   <> Returns tt).
      { destruct Hcase as [[-> ->]|(e' & -> & ->)]; cbn [fst snd events record];
          rewrite Eop, <- !app_assoc; split; try reflexivity; discriminate. }
      destruct Hev as [Hev Hne]. rewrite Hev.
      split; [reflexivity|]. split; [lia|].
      split; [rewrite !attempts_app, At, Ha; reflexivity|].
      split; [left; reflexivity|].
      split; [intros H; contradiction|].
      split; [rewrite !count_app, Ot, Ct; unfold count; cbn; rewrite Hc, Hno;
              reflexivity|].
      split; [rewrite !written_app, Wt, Hw; cbn; rewrite ?app_nil_r;
              reflexivity|].
      split; [rewrite !count_app; unfold count; cbn; lia|].
      repeat constructor. exact Hn.
  - exfalso. apply (transfer_terminates w csv file_size (S p) (opened st)).
    rewrite Et. reflexivity.
Qed.

(** The exponents tried go down one by one from the starting one, each
    reported as failed, and at most the last attempt is reported as
    having worked: this holds in every environment and for every way
    the loop ends. *)
Theorem backoff_loop_attempts_descend w csv file_size p st :
  exists new q k tail,
    events (snd (backoff_loop w csv file_size p st)) = events st ++ new /\
    p = (q + k)%nat /\
    attempts new = failures q k ++ tail /\
    (tail = [] \/ (tail = [(q, true)] /\ (1 <= q)%nat)).
Proof.
  destruct (backoff_loop_run w csv file_size p st)
    as (new & q & k & tail & ks & H1 & H2 & H3 & H4 & _).
  exists new, q, k, tail. auto.
Qed.

(** When the loop returns, either its last attempt worked, at an
    exponent of at least 1, or every exponent down to 1 has failed. *)
Theorem backoff_loop_returns_worked_or_exhausted w csv file_size p st :
  fst (backoff_loop w csv file_size p st) = Returns tt ->
  exists new,
    events (snd (backoff_loop w csv file_size p st)) = events st ++ new /\
    (attempts new = failures 0 p \/
     exists q k, p = (q + k)%nat /\ (1 <= q)%nat /\
       attempts new = failures q k ++ [(q, true)]).
Proof.
  intros Hr.
  destruct (backoff_loop_run w csv file_size p st)
    as (new & q & k & tail & ks & H1 & H2 & H3 & H4 & H5 & _).
  exists new. split; [exact H1|].
  destruct (H5 Hr) as [[-> ->] | ->].
  - left. rewrite H3, app_nil_r. cbn in H2. subst k. reflexivity.
  - right. exists q, k. destruct H4 as [H|[_ H]]; [discriminate H|]. auto.
Qed.

Lemma backoff_loop_returns_worked_or_exhausted_witness :
  exists new,
    events (snd (backoff_loop calm abc 3 24 initial)) = [] ++ new /\
    (attempts new = failures 0 24 \/
     exists q k, 24%nat = (q + k)%nat /\ (1 <= q)%nat /\
       attempts new = failures q k ++ [(q, true)]).
Proof.
  apply (backoff_loop_returns_worked_or_exhausted calm abc 3 24 initial).
  reflexivity.
Defined.

(** Every successful opening of the FIFO is matched by one call of
    [close] on it, however the attempt ends. *)
Theorem backoff_loop_closes_what_it_opens w csv file_size p st :
  exists new,
    events (snd (backoff_loop w csv file_size p st)) = events st ++ new /\
    count is_open_done new = count is_close new.
Proof.
  destruct (backoff_loop_run w csv file_size p st)
    as (new & q & k & tail & ks & H1 & _ & _ & _ & _ & H6 & _).
  exists new. auto.
Qed.

(** Every attempt sends the source again from its first byte: what the
    channel is given over the whole loop is a sequence of prefixes of
    the source, one per attempt, each at most [file_size] bytes long. *)
Theorem backoff_loop_resends_from_start w csv file_size p st :
  exists new ks,
    events (snd (backoff_loop w csv file_size p st)) = events st ++ new /\
    written new = concat (map (fun n => firstn n csv) ks) /\
    (length ks <= count is_open_done new)%nat /\
    Forall (fun n => (n <= Z.to_nat file_size)%nat) ks.
Proof.
  destruct (backoff_loop_run w csv file_size p st)
    as (new & q & k & tail & ks & H1 & _ & _ & _ & _ & _ & H7 & H8 & H9).
  exists new, ks. auto.
Qed.

(** An exception other than [BrokenPipeError] in an attempt is not
    retried: the FIFO is closed and the exception leaves the loop. *)
Theorem backoff_loop_other_errors_not_retried w csv file_size p st e st' :
  quiet channel_call w ->
  transfer w csv file_size (2 ^ Z.of_nat (S p)) (opened st) = (Raises e, st') ->
  is_BrokenPipeError e = false ->
  backoff_loop w csv file_size (S p) st = (Raises e, record (Did CloseFifo) st').
Proof.
  intros Hq E Hb.
  rewrite backoff_loop_step, E, Hb by (apply Hq; reflexivity).
  unfold closing. rewrite Hq by reflexivity. reflexivity.
Qed.

Lemma backoff_loop_other_errors_not_retried_witness :
  backoff_loop (fails_at is_write OSError) abc 3 24 initial =
  (Raises OSError,
   record (Did CloseFifo)
     (snd (transfer (fails_at is_write OSError) abc 3 (2 ^ Z.of_nat 24)
             (opened initial)))).
Proof.
  apply (backoff_loop_other_errors_not_retried
           (fails_at is_write OSError) abc 3 23 initial OSError).
  - intros t o H. destruct o; try discriminate H; reflexivity.
  - reflexivity.
  - reflexivity.
Defined.


(** * More about [create_import_sqlite] *)

(** ** Splitting a list at an element of a given kind *)

Lemma split_in_left {A} (f : A -> bool) (a b t1 : list A) e t2 :
  a ++ b = t1 ++ e :: t2 ->
  forallb (fun y => negb (f y)) b = true -> f e = true ->
  exists s, a = t1 ++ e :: s.
Proof.
  revert t1. induction a as [|x a IH]; intros t1 H Hb He.
  - cbn in H. exfalso. apply (no_split_without f _ _ _ _ H Hb He).
  - destruct t1 as [|y t1]; cbn in H; inversion H; subst.
    + exists a. reflexivity.
    + destruct (IH _ H2 Hb He) as (s & ->). exists s. reflexivity.
Qed.

Lemma split_in_right {A} (f : A -> bool) (a b t1 : list A) e t2 :
  a ++ b = t1 ++ e :: t2 ->
  forallb (fun y => negb (f y)) a = true -> f e = true ->
  exists t0, t1 = a ++ t0.
Proof.
  revert t1. induction a as [|x a IH]; intros t1 H Ha He.
  - exists t1. reflexivity.
  - cbn in Ha. apply andb_prop in Ha as [Hx Ha].
    destruct t1 as [|y t1]; cbn in H; inversion H; subst.
    + rewrite He in Hx. discriminate Hx.
    + destruct (IH _ H2 Ha He) as (t0 & ->). exists t0. reflexivity.
Qed.

(** ** The two ways the body can go *)

(** Either the four steps before the loop all succeed, and the body is
    the loop run from [started]; or one of them fails, the loop is never
    entered and [proc] stays unbound. *)
Lemma import_body_cases w csv file_size :
  import_body w csv file_size initial = backoff_loop w csv file_size 24 started \/
  exists r st,
    import_body w csv file_size initial = (r, st) /\
    proc st = false /\
    forallb setup_event (events st) = true /\
    ~ In (Did PopenImport) (events st).
Proof.
  unfold import_body, try_except_else, create_fifo, import_steps.
  set (loop := backoff_loop w csv file_size 24).
  rewrite bind_call. cbn.
  destruct (w [] Mkdtemp) as [e|] eqn:E1; cbn.
  { right. destruct (is_OSError e); cbn; eexists _, _;
      (split; [reflexivity|]); cbn; repeat split; intuition discriminate. }
  rewrite bind_call_unit. cbn.
  destruct (w [Did Mkdtemp] Mkfifo) as [e|] eqn:E2; cbn.
  { right. destruct (is_OSError e); cbn; eexists _, _;
      (split; [reflexivity|]); cbn; repeat split; intuition discriminate. }
  rewrite bind_call. cbn.
  destruct (w [Did Mkdtemp; Did Mkfifo] RunCreateTable) as [e|] eqn:E3; cbn.
  { right. eexists _, _; (split; [reflexivity|]); cbn; repeat split;
      intuition discriminate. }
  rewrite bind_call. cbn.
  destruct (w [Did Mkdtemp; Did Mkfifo; Did RunCreateTable] PopenImport)
    as [e|] eqn:E4; cbn.
  { right. eexists _, _; (split; [reflexivity|]); cbn; repeat split;
      intuition discriminate. }
  left. reflexivity.
Qed.

Lemma setup_event_not_session e :
  setup_event e = true -> session_event e = false.
Proof. destruct e as [[]|[]|[]]; cbn; congruence. Qed.

Lemma cleanup_event_not_session e :
  cleanup_event e = true -> session_event e = false.
Proof. destruct e as [[]|[]|[]]; cbn; congruence. Qed.

Lemma forallb_implies {A} (P Q : A -> bool) l :
  (forall x, P x = true -> Q x = true) ->
  forallb P l = true -> forallb Q l = true.
Proof. rewrite !forallb_forall. auto. Qed.

(** The FIFO is opened, and data read and written, only once the
    directory and the FIFO exist, the table has been created and the
    loader has been started, in this order. *)
Theorem transfer_only_after_loader_started w csv file_size t1 ev t2 :
  events (snd (create_import_sqlite w csv file_size initial)) = t1 ++ ev :: t2 ->
  session_event ev = true ->
  exists t0,
    t1 = [Did Mkdtemp; Did Mkfifo; Did RunCreateTable; Did PopenImport] ++ t0.
Proof.
  intros Hsplit Hev.
  destruct (finally_adds w csv file_size) as (fin & Ef & Ff).
  rewrite Ef in Hsplit.
  assert (Hfin : forallb (fun y => negb (session_event y)) fin = true).
  { apply (forallb_implies cleanup_event); [|exact Ff].
    intros x Hx. rewrite (cleanup_event_not_session x Hx). reflexivity. }
  destruct (split_in_left session_event _ _ _ _ _ Hsplit Hfin Hev) as (s & Hs).
  destruct (import_body_cases w csv file_size) as [Eb|(r & st & Eb & _ & Fs & _)].
  - rewrite Eb in Hs.
    destruct (tame_backoff_loop w csv file_size 24 started) as (new & En & _).
    rewrite En in Hs. cbn [events started] in Hs.
    apply (split_in_right session_event _ _ _ _ _ Hs); [reflexivity|exact Hev].
  - rewrite Eb in Hs. cbn [snd] in Hs. exfalso.
    apply (no_split_without session_event _ _ _ _ Hs); [|exact Hev].
    apply (forallb_implies setup_event); [|exact Fs].
    intros x Hx. rewrite (setup_event_not_session x Hx). reflexivity.
Qed.

Lemma transfer_only_after_loader_started_witness :
  exists t0,
    [Did Mkdtemp; Did Mkfifo; Did RunCreateTable; Did PopenImport;
     Did OpenFifo; Did Seek0; Did (Read 3)]
    = [Did Mkdtemp; Did Mkfifo; Did RunCreateTable; Did PopenImport] ++ t0.
Proof.
  apply (transfer_only_after_loader_started calm abc 3 _ (Did (Write abc))
           [Did Flush; Said (PowerWorked 24); Did CloseFifo; Did CsvClose;
            Did QuitWrite; Did StdinFlush; Did StdinClose; Did Wait;
            Did RemoveFifo; Did Rmdir]); reflexivity.
Defined.

(** ** The source stream is always closed *)

Lemma cleanup_closes_source_once w st :
  count is_csv_close (events (snd (cleanup w st)))
  = S (count is_csv_close (events st)).
Proof.
  unfold cleanup, bind, call, local, when, ret, record.
  repeat (cbn [events proc fifo_fname tmpdir];
          match goal with
          | |- context [w ?t ?o] => destruct (w t o)
          | |- context [proc st] => destruct (proc st)
          | |- context [fifo_fname st] => destruct (fifo_fname st)
          | |- context [tmpdir st] => destruct (tmpdir st)
          end).
  all: cbn [events snd]; rewrite !count_app; unfold count; cbn; lia.
Qed.

Lemma body_events_no_csv_close t :
  forallb body_event t = true -> count is_csv_close t = 0%nat.
Proof.
  intros H. apply count_none. apply (forallb_implies body_event); [|exact H].
  intros e He. destruct e as [[]|[]|[]]; cbn in *; congruence.
Qed.

(** [csv_fh.close()] is called exactly once in every run, whichever step
    failed before. *)
Theorem source_closed_exactly_once w csv file_size :
  count is_csv_close (events (snd (create_import_sqlite w csv file_size initial)))
  = 1%nat.
Proof.
  destruct (import_body_shape w csv file_size) as (r & st & E & D & Fb & _).
  assert (Hevs : events (snd (create_import_sqlite w csv file_size initial))
                 = events (snd (cleanup w st))).
  { unfold create_import_sqlite, try_finally. rewrite E.
    destruct r; try congruence; destruct (cleanup w st) as [[[]| |] ?];
      reflexivity. }
  rewrite Hevs, cleanup_closes_source_once, (body_events_no_csv_close _ Fb).
  reflexivity.
Qed.

(** ** What a normal return means *)

(** When [create_import_sqlite] returns without an exception, the table
    was created, the loader was started, asked to quit and waited for,
    and the FIFO and the directory were removed, as the last steps. *)
Theorem normal_return_means_cleaned_up w csv file_size :
  fst (create_import_sqlite w csv file_size initial) = Returns tt ->
  exists during,
    events (snd (create_import_sqlite w csv file_size initial))
      = [Did Mkdtemp; Did Mkfifo; Did RunCreateTable; Did PopenImport]
          ++ during ++ terminated ++ [Did RemoveFifo; Did Rmdir] /\
    forallb session_event during = true.
Proof.
  intros Hr.
  destruct (create_import_sqlite_split w csv file_size)
    as (r & st & new & Eb & D & Fb & Lb & Lp & Ev & Sh & Out).
  rewrite Out in Hr.
  inversion Sh as [n0 e0 Hn Hnew Hout| e0 Hp Hnew Hout | Hp Ht Hnew Hout
                  | e0 Hp Hnew Hout | Hp Hf Ht Hnew Hout];
    rewrite <- Hout in Hr; try discriminate Hr.
  subst new.
  destruct (import_body_cases w csv file_size)
    as [Es|(r' & st' & Es & Hp' & _)].
  - destruct (tame_backoff_loop w csv file_size 24 started)
      as (during & En & Fn & _).
    rewrite <- Es, Eb in En. cbn [snd events started] in En.
    exists during. split; [|exact Fn].
    rewrite Ev, En. cbn. reflexivity.
  - rewrite Eb in Es. inversion Es; subst. congruence.
Qed.

Lemma normal_return_means_cleaned_up_witness :
  exists during,
    events (snd (create_import_sqlite calm abc 3 initial))
      = [Did Mkdtemp; Did Mkfifo; Did RunCreateTable; Did PopenImport]
          ++ during ++ terminated ++ [Did RemoveFifo; Did Rmdir] /\
    forallb session_event during = true.
Proof.
  apply (normal_return_means_cleaned_up calm abc 3). reflexivity.
Defined.

(** ** A FIFO that cannot be created *)

(** When [mkdtemp] or [mkfifo] fails with an [OSError], the handler logs
    it and swallows it; sqlite3 is never run and nothing is removed; and
    the job still ends with an exception, because the [finally] block
    then reads the unbound [proc] (unless closing the source fails
    first). *)
Theorem fifo_creation_failure w csv file_size e :
  is_OSError e = true ->
  w [] Mkdtemp = Some e \/
  (w [] Mkdtemp = None /\ w [Did Mkdtemp] Mkfifo = Some e) ->
  let run := create_import_sqlite w csv file_size initial in
  (exists before close,
     events (snd run) = before ++ [Said (FailedToCreateFifo e); close] /\
     is_csv_close close = true /\
     forallb setup_event before = true /\
     fst run = match close with
               | Failed _ e' => Raises e'
               | _ => Raises UnboundLocalError
               end) /\
  forallb (fun ev => negb (sqlite_event ev || is_removal ev)) (events (snd run))
    = true.
Proof.
  intros He Hw run. subst run.
  unfold create_import_sqlite, try_finally, import_body, try_except_else,
    create_fifo.
  rewrite bind_call. cbn [events initial].
  destruct Hw as [H1|[H1 H2]]; rewrite H1.
  - rewrite He. unfold say, cleanup. rewrite bind_call. cbn.
    destruct (w _ CsvClose) as [e'|]; cbn.
    + split; [|reflexivity].
      exists [Failed Mkdtemp e], (Failed CsvClose e'). repeat split.
    + split; [|reflexivity].
      exists [Failed Mkdtemp e], (Did CsvClose). repeat split.
  - unfold bind at 2 3. cbn. rewrite bind_call_unit. cbn. rewrite H2, He.
    unfold say, cleanup. rewrite bind_call. cbn.
    destruct (w _ CsvClose) as [e'|]; cbn.
    + split; [|reflexivity].
      exists [Did Mkdtemp; Failed Mkfifo e], (Failed CsvClose e'). repeat split.
    + split; [|reflexivity].
      exists [Did Mkdtemp; Failed Mkfifo e], (Did CsvClose). repeat split.
Qed.

Lemma fifo_creation_failure_witness :
  let run := create_import_sqlite
               (fails_at (fun o => match o with Mkfifo => true | _ => false end)
                  OSError) abc 3 initial in
  forallb (fun ev => negb (sqlite_event ev || is_removal ev)) (events (snd run))
    = true.
Proof.
  apply (fifo_creation_failure
           (fails_at (fun o => match o with Mkfifo => true | _ => false end)
              OSError) abc 3 OSError).
  - reflexivity.
  - right. split; reflexivity.
Defined.

Lemma quit_written_once_loader_started_witness :
  let tr := events (snd (create_import_sqlite (fails_at is_write OSError)
                           abc 3 initial)) in
  In (Did QuitWrite) tr \/ exists e, In (Failed QuitWrite e) tr.
Proof.
  apply (quit_written_once_loader_started (fails_at is_write OSError) abc 3);
    vm_compute; tauto.
Defined.


(** * More about [main] *)

(** [main], spelled out for every command line. *)
Lemma main_cases w args st :
  main w args st =
  match name_filter args with
  | Some pattern =>
      if truthy (Some pattern) then
        match w (events st) (ReCompile pattern) with
        | Some e => (Raises e, record (Failed (ReCompile pattern) e) st)
        | None =>
            let st1 := record (Did (ReCompile pattern)) st in
            if truthy (zip_file args) then
              match w (events st1) ZipWalker with
              | Some e => (Raises e, record (Failed ZipWalker e) st1)
              | None => (Returns tt, record (Did ZipWalker) st1)
              end
            else (Returns tt, record (Said Help) st1)
        end
      else if truthy (zip_file args) then (Raises UnboundLocalError, st)
           else (Returns tt, record (Said Help) st)
  | None =>
      if truthy (zip_file args) then (Raises UnboundLocalError, st)
      else (Returns tt, record (Said Help) st)
  end.
Proof.
  unfold main.
  destruct (name_filter args) as [pattern|].
  - destruct (truthy (Some pattern)).
    + unfold bind at 1. unfold bind at 1. unfold call at 1.
      destruct (w (events st) (ReCompile pattern)); [reflexivity|].
      unfold ret. destruct (truthy (zip_file args)); reflexivity.
    + unfold bind, ret. destruct (truthy (zip_file args)); reflexivity.
  - unfold bind, ret. destruct (truthy (zip_file args)); reflexivity.
Qed.

(** An archive path without a usable filter: [main] reaches the call of
    [zip_walker] with its local [name_filter] unbound and raises
    [UnboundLocalError] before anything is done. *)
Theorem archive_without_filter_is_an_error w args st :
  truthy (zip_file args) = true ->
  truthy (name_filter args) = false ->
  main w args st = (Raises UnboundLocalError, st) /\
  program w args st = (Returns tt, record (Said (Printed UnboundLocalError)) st).
Proof.
  intros Hz Hf. unfold program, try_except. rewrite main_cases, Hz.
  destruct (name_filter args) as [pattern|]; [rewrite Hf|]; split; reflexivity.
Qed.

Lemma archive_without_filter_is_an_error_witness :
  main calm archive_only initial = (Raises UnboundLocalError, initial) /\
  program calm archive_only initial =
    (Returns tt, record (Said (Printed UnboundLocalError)) initial).
Proof.
  apply (archive_without_filter_is_an_error calm archive_only initial);
    reflexivity.
Defined.

(** [zip_walker] is called at most once, and only when an archive path
    and a filter are both given and the filter compiled; it is then the
    second and last call [main] makes. *)
Theorem zip_walker_called_only_with_archive_and_filter w args st ev :
  In ev (events (snd (main w args st))) ->
  ~ In ev (events st) ->
  op_of ev = Some ZipWalker ->
  truthy (zip_file args) = true /\
  exists pattern,
    name_filter args = Some pattern /\ truthy (Some pattern) = true /\
    events (snd (main w args st)) = events st ++ [Did (ReCompile pattern); ev].
Proof.
  intros Hin Hnot Hop. rewrite main_cases in *.
  destruct (name_filter args) as [pattern|].
  - destruct (truthy (Some pattern)) eqn:Et.
    + destruct (w (events st) (ReCompile pattern)) as [e|].
      * cbn in Hin. apply in_app_or in Hin as [H|[<-|[]]]; [contradiction|].
        discriminate Hop.
      * cbv zeta in *. destruct (truthy (zip_file args)).
        -- split; [reflexivity|]. exists pattern.
           split; [reflexivity|]. split; [exact Et|].
           destruct (w _ ZipWalker) as [e|]; cbn in Hin |- *;
             rewrite <- app_assoc in Hin |- *;
             apply in_app_or in Hin as [H|[<-|[<-|[]]]];
             try contradiction; try discriminate Hop; reflexivity.
        -- cbn in Hin. rewrite <- app_assoc in Hin.
           apply in_app_or in Hin as [H|[<-|[<-|[]]]];
             try contradiction; discriminate Hop.
    + destruct (truthy (zip_file args)); cbn in Hin.
      * contradiction.
      * apply in_app_or in Hin as [H|[<-|[]]]; [contradiction|].
        discriminate Hop.
  - destruct (truthy (zip_file args)); cbn in Hin.
    + contradiction.
    + apply in_app_or in Hin as [H|[<-|[]]]; [contradiction|].
      discriminate Hop.
Qed.

Lemma zip_walker_called_only_with_archive_and_filter_witness :
  truthy (zip_file archive_and_filter) = true /\
  exists pattern,
    name_filter archive_and_filter = Some pattern /\
    truthy (Some pattern) = true /\
    events (snd (main calm archive_and_filter initial))
      = [] ++ [Did (ReCompile pattern); Did ZipWalker].
Proof.
  apply (zip_walker_called_only_with_archive_and_filter calm
           archive_and_filter initial (Did ZipWalker)).
  - cbn. auto.
  - intros [].
  - reflexivity.
Defined.




(** * About [get_table_lengths] *)

(** ** Insert and look up *)

Lemma dict_get_set_same {V} k (v : V) d : dict_get k (dict_set k v d) = Some v.
Proof.
  induction d as [|[k' v'] d IH]; cbn.
  - rewrite String.eqb_refl. reflexivity.
  - destruct (String.eqb k k') eqn:E; cbn; rewrite ?E, ?String.eqb_refl; auto.
Qed.

Lemma dict_get_set_other {V} k k' (v : V) d :
  k <> k' -> dict_get k (dict_set k' v d) = dict_get k d.
Proof.
  intros Hne. apply String.eqb_neq in Hne.
  induction d as [|[k0 v0] d IH]; cbn.
  - rewrite Hne. reflexivity.
  - destruct (String.eqb k' k0) eqn:E; cbn.
    + apply String.eqb_eq in E. subst k0. rewrite Hne. reflexivity.
    + destruct (String.eqb k k0); auto.
Qed.

Lemma dict_set_keys {V} k (v : V) d k0 :
  In k0 (map fst (dict_set k v d)) <-> k0 = k \/ In k0 (map fst d).
Proof.
  induction d as [|[k' v'] d IH]; cbn.
  - intuition.
  - destruct (String.eqb k k') eqn:E; cbn.
    + apply String.eqb_eq in E. subst k'. intuition.
    + rewrite IH. intuition.
Qed.

Lemma dict_set_NoDup {V} k (v : V) d :
  NoDup (map fst d) -> NoDup (map fst (dict_set k v d)).
Proof.
  induction d as [|[k' v'] d IH]; cbn; intros H.
  - constructor; [intros []|constructor].
  - inversion H as [|? ? Hn Hd]; subst.
    destruct (String.eqb k k') eqn:E; cbn.
    + apply String.eqb_eq in E. subst k'. constructor; assumption.
    + constructor; [|auto]. rewrite dict_set_keys. intros [->|Hin].
      * rewrite String.eqb_refl in E. discriminate E.
      * contradiction.
Qed.

(** ** Success and failure *)

Lemma table_length_item_ok int row :
  (exists item, table_length_item int row = inr item) <-> table_length_row int row.
Proof.
  unfold table_length_row. split.
  - intros (item & H). destruct row as [|name [|len rest]]; try discriminate H.
    cbn in H. destruct (int len) as [n|] eqn:E; [|discriminate H].
    exists name, len, rest, n. auto.
  - intros (name & len & rest & n & -> & E). cbn. rewrite E. eauto.
Qed.

Lemma table_lengths_ok int rows :
  forall d, (exists d', table_lengths int rows d = inr d')
            <-> Forall (table_length_row int) rows.
Proof.
  induction rows as [|row rows IH]; intros d; cbn.
  - split; [constructor|eauto].
  - destruct (table_length_item int row) as [e|[name n]] eqn:E.
    + split; [intros (d' & H); discriminate H|].
      intros H. inversion H as [|? ? Hr _]; subst.
      apply table_length_item_ok in Hr as (item & Hi). congruence.
    + rewrite IH. split; intros H.
      * constructor; [|exact H]. apply table_length_item_ok. eauto.
      * inversion H; assumption.
Qed.

(** [get_table_lengths] returns a dictionary exactly when there is a
    header row and every row after it has at least two fields, the
    second of which [int] accepts. *)
Theorem get_table_lengths_succeeds_iff int rows :
  (exists d, get_table_lengths int rows = inr d) <->
  exists header rest,
    rows = header :: rest /\ Forall (table_length_row int) rest.
Proof.
  destruct rows as [|header rest]; cbn.
  - split; [intros (d & H); discriminate H|intros (h & r & H & _); discriminate H].
  - rewrite table_lengths_ok. split.
    + intros H. exists header, rest. auto.
    + intros (h & r & H & F). inversion H; subst. exact F.
Qed.

Lemma get_table_lengths_succeeds_iff_witness :
  exists d,
    get_table_lengths plain_decimal
      [["table"; "rows"]; ["a"; "10"]; ["b"; "7"; "x"]]%string = inr d.
Proof.
  apply (get_table_lengths_succeeds_iff plain_decimal).
  eexists _, _. split; [reflexivity|].
  constructor; [|constructor; [|constructor]].
  - exists "a"%string, "10"%string, [], 10. split; reflexivity.
  - exists "b"%string, "7"%string, ["x"%string], 7. split; reflexivity.
Defined.




(** ** What is in the dictionary *)

Lemma find_append {A} (f : A -> bool) (a b : list A) :
  find f (a ++ b) =
  match find f a with
  | Some x => Some x
  | None => find f b
  end.
Proof.
  induction a as [|x a IH]; cbn; [reflexivity|].
  destruct (f x); auto.
Qed.

Lemma table_lengths_get int k rows :
  forall d d',
    table_lengths int rows d = inr d' ->
    dict_get k d' =
    match find (keyed k) (rev rows) with
    | Some (_ :: len :: _) => int len
    | Some _ => None
    | None => dict_get k d
    end.
Proof.
  induction rows as [|row rows IH]; intros d d' H; cbn in H.
  - inversion H. reflexivity.
  - destruct (table_length_item int row) as [e|[name n]] eqn:E; [discriminate H|].
    rewrite (IH _ _ H). cbn [rev].
    destruct row as [|name' [|len rest]]; try discriminate E.
    cbn in E. destruct (int len) as [n'|] eqn:En; [|discriminate E].
    inversion E; subst name' n'.
    rewrite find_append.
    destruct (find (keyed k) (rev rows)) as [r|]; [reflexivity|].
    cbn. destruct (String.eqb k name) eqn:Ek.
    + apply String.eqb_eq in Ek. subst k. rewrite dict_get_set_same. auto.
    + apply String.eqb_neq in Ek. apply dict_get_set_other. exact Ek.
Qed.

(** The value under a key is the integer of the last row with that key:
    later rows overwrite earlier ones, and the header row counts for
    nothing; a key no row has is absent. *)
Theorem get_table_lengths_last_row_wins int header rows d k :
  get_table_lengths int (header :: rows) = inr d ->
  dict_get k d =
  match find (keyed k) (rev rows) with
  | Some (_ :: len :: _) => int len
  | _ => None
  end.
Proof.
  intros H. cbn in H. rewrite (table_lengths_get int k _ _ _ H).
  destruct (find (keyed k) (rev rows)) as [[|? [|? ?]]|]; reflexivity.
Qed.

Lemma get_table_lengths_last_row_wins_witness :
  dict_get "a"%string
    [("a", 3); ("b", 7)]%string =
  match find (keyed "a"%string)
          (rev [["a"; "10"]; ["b"; "7"]; ["a"; "3"]]%string) with
  | Some (_ :: len :: _) => plain_decimal len
  | _ => None
  end.
Proof.
  apply (get_table_lengths_last_row_wins plain_decimal
           ["table"; "rows"]%string
           [["a"; "10"]; ["b"; "7"]; ["a"; "3"]]%string).
  reflexivity.
Defined.

Lemma table_lengths_keys int rows :
  forall d d',
    table_lengths int rows d = inr d' ->
    NoDup (map fst d) ->
    NoDup (map fst d') /\
    (forall k, In k (map fst d') <->
               In k (map fst d) \/ exists row, In row rows /\ keyed k row = true).
Proof.
  induction rows as [|row rows IH]; intros d d' H Hd; cbn in H.
  - inversion H; subst. split; [exact Hd|].
    intros k. split; [auto|]. intros [Hk|(row & [] & _)]. exact Hk.
  - destruct (table_length_item int row) as [e|[name n]] eqn:E; [discriminate H|].
    destruct (IH _ _ H (dict_set_NoDup name n d Hd)) as [Hn Hk].
    split; [exact Hn|]. intros k. rewrite Hk, dict_set_keys.
    destruct row as [|name' [|len rest]]; try discriminate E.
    cbn in E. destruct (int len); [|discriminate E]. inversion E; subst name'.
    split.
    + intros [[->|Hin]|(r & Hr & Hkey)].
      * right. exists (name :: len :: rest). split; [left; reflexivity|].
        cbn. apply String.eqb_refl.
      * left. exact Hin.
      * right. exists r. split; [right; exact Hr|exact Hkey].
    + intros [Hin|(r & [<-|Hr] & Hkey)].
      * left. right. exact Hin.
      * left. left. cbn in Hkey. apply String.eqb_eq in Hkey. exact Hkey.
      * right. exists r. auto.
Qed.

(** The keys of the result are the first fields of the rows after the
    header, each once. *)
Theorem get_table_lengths_keys int header rows d :
  get_table_lengths int (header :: rows) = inr d ->
  NoDup (map fst d) /\
  (forall k, In k (map fst d) <-> exists row, In row rows /\ keyed k row = true).
Proof.
  intros H. cbn in H.
  destruct (table_lengths_keys int rows [] d H) as [Hn Hk]; [constructor|].
  split; [exact Hn|]. intros k. rewrite Hk. cbn. intuition.
Qed.

Lemma get_table_lengths_keys_witness :
  NoDup (map fst [("a", 3); ("b", 7)]%string) /\
  (forall k, In k (map fst [("a", 3); ("b", 7)]%string) <->
     exists row, In row [["a"; "10"]; ["b"; "7"]; ["a"; "3"]]%string
                 /\ keyed k row = true).
Proof.
  apply (get_table_lengths_keys plain_decimal ["table"; "rows"]%string
           [["a"; "10"]; ["b"; "7"]; ["a"; "3"]]%string).
  reflexivity.
Defined.


(** * About [zip_walker] *)

(** ** Member names *)

Lemma before_clean c s : ~ In c (before c s).
Proof.
  induction s as [|x s IH]; cbn; [auto|].
  destruct (Ascii.eqb x c) eqn:E; cbn; [auto|].
  intros [->|H]; [|auto]. rewrite Ascii.eqb_refl in E. discriminate E.
Qed.

Lemma before_incl c s x : In x (before c s) -> In x s.
Proof.
  induction s as [|y s IH]; cbn; [auto|].
  destruct (Ascii.eqb y c); cbn; [intros []|]. intuition.
Qed.

Lemma before_app_stop c s rest :
  ~ In c s -> before c (s ++ c :: rest) = s.
Proof.
  induction s as [|x s IH]; cbn; intros H.
  - rewrite Ascii.eqb_refl. reflexivity.
  - destruct (Ascii.eqb x c) eqn:E.
    + apply Ascii.eqb_eq in E. subst x. exfalso. auto.
    + rewrite IH; auto.
Qed.

Lemma before_all c s : ~ In c s -> before c s = s.
Proof.
  induction s as [|x s IH]; cbn; intros H; [reflexivity|].
  destruct (Ascii.eqb x c) eqn:E.
  - apply Ascii.eqb_eq in E. subst x. exfalso. auto.
  - rewrite IH; auto.
Qed.

(** The table name never contains a dot or a slash. *)
Theorem table_name_clean name :
  ~ In "."%char (table_name_chars name) /\
  ~ In "/"%char (table_name_chars name).
Proof.
  unfold table_name_chars, basename. split.
  - apply before_clean.
  - intros H. apply before_incl in H. rewrite <- in_rev in H.
    apply (before_clean _ _ H).
Qed.

(** For a member [dir/stem.ext] (or [stem.ext], or without extension),
    the table name is [stem]: the directories and everything from the
    first dot of the file name on are dropped. *)
Theorem table_name_of_path dirs stem ext :
  (dirs = [] \/ exists dir, dirs = dir ++ ["/"%char]) ->
  ~ In "."%char stem -> ~ In "/"%char stem ->
  (ext = [] \/ exists more, ext = "."%char :: more /\ ~ In "/"%char more) ->
  table_name_chars (dirs ++ stem ++ ext) = stem.
Proof.
  intros Hd Hdot Hslash He.
  assert (Hext : ~ In "/"%char ext).
  { destruct He as [->|(more & -> & Hm)]; cbn; [auto|].
    intros [H|H]; [discriminate H|auto]. }
  assert (Hb : basename (dirs ++ stem ++ ext) = stem ++ ext).
  { unfold basename. destruct Hd as [->|(dir & ->)].
    - cbn. rewrite before_all, rev_involutive; [reflexivity|].
      rewrite <- in_rev, in_app_iff. tauto.
    - rewrite (rev_app_distr (dir ++ ["/"%char]) (stem ++ ext)).
      rewrite (rev_app_distr dir ["/"%char]). cbn [rev app].
      rewrite before_app_stop, rev_involutive; [reflexivity|].
      rewrite <- in_rev, in_app_iff. tauto. }
  unfold table_name_chars. rewrite Hb.
  destruct He as [->|(more & -> & _)].
  - rewrite app_nil_r. apply before_all. exact Hdot.
  - apply before_app_stop. exact Hdot.
Qed.

Lemma table_name_of_path_witness :
  table_name_chars
    (list_ascii_of_string "a/b/"%string ++ list_ascii_of_string "t"%string
       ++ list_ascii_of_string ".csv.gz"%string)
  = list_ascii_of_string "t"%string.
Proof.
  apply (table_name_of_path (list_ascii_of_string "a/b/"%string)
           (list_ascii_of_string "t"%string)
           (list_ascii_of_string ".csv.gz"%string)).
  - right. exists (list_ascii_of_string "a/b"%string). reflexivity.
  - cbn. intuition discriminate.
  - cbn. intuition discriminate.
  - right. exists (list_ascii_of_string "csv.gz"%string). split; [reflexivity|].
    cbn. intuition discriminate.
Defined.

Lemma no_newline_rev s : no_newline (rev s) = no_newline s.
Proof.
  unfold no_newline. apply Bool.eq_true_iff_eq.
  rewrite !forallb_forall. split; intros H x Hx; apply H.
  - apply in_rev in Hx. exact Hx.
  - apply in_rev. exact Hx.
Qed.

(** A member is taken for a CSV file exactly when its name is a stem
    without newline followed by [.csv], in lower case, possibly followed
    by one final newline. *)
Theorem CSV_EXT_RX_spec name :
  CSV_EXT_RX name = true <->
  exists stem,
    no_newline stem = true /\
    (list_ascii_of_string name = stem ++ list_ascii_of_string ".csv"%string \/
     list_ascii_of_string name
       = stem ++ list_ascii_of_string ".csv"%string ++ [newline]).
Proof.
  unfold CSV_EXT_RX.
  set (l := list_ascii_of_string name).
  assert (Hl : l = rev (rev l)) by (symmetry; apply rev_involutive).
  split.
  - intros H. destruct (rev l) as [|c0 r] eqn:Er; [discriminate H|].
    destruct (Ascii.eqb c0 newline) eqn:En.
    + apply Ascii.eqb_eq in En. subst c0.
      destruct r as [|v [|s [|c [|dot stem]]]]; try discriminate H.
      repeat (apply andb_prop in H as [H ?]).
      repeat match goal with
             | E : Ascii.eqb _ _ = true |- _ => apply Ascii.eqb_eq in E; subst
             end.
      exists (rev stem). rewrite no_newline_rev. split; [assumption|].
      right. rewrite Hl. cbn. rewrite <- !app_assoc. reflexivity.
    + destruct r as [|s [|c [|dot stem]]]; try discriminate H.
      repeat (apply andb_prop in H as [H ?]).
      repeat match goal with
             | E : Ascii.eqb _ _ = true |- _ => apply Ascii.eqb_eq in E; subst
             end.
      exists (rev stem). rewrite no_newline_rev. split; [assumption|].
      left. rewrite Hl. cbn. rewrite <- !app_assoc. reflexivity.
  - intros (stem & Hs & [H|H]); rewrite H.
    + rewrite rev_app_distr. cbn. rewrite no_newline_rev. exact Hs.
    + rewrite app_assoc, rev_app_distr. cbn. rewrite rev_app_distr. cbn.
      rewrite no_newline_rev. exact Hs.
Qed.

Lemma CSV_EXT_RX_spec_witness :
  CSV_EXT_RX "dir/t.csv"%string = true.
Proof.
  apply (CSV_EXT_RX_spec "dir/t.csv"%string).
  exists (list_ascii_of_string "dir/t"%string). split; [reflexivity|].
  left. reflexivity.
Defined.

(** ** The walk *)

(** The members dealt with are those at the positions of the archive
    listing whose name passes the filter and matches [CSV_EXT_RX]. *)
Lemma selected_members name_filter names :
  forall file_no j name,
    In (j, name) (selected name_filter file_no names) <->
    (file_no <= j)%nat /\
    nth_error names (j - file_no) = Some name /\
    selects name_filter name = true.
Proof.
  induction names as [|x names IH]; intros file_no j name; cbn.
  - split; [intros []|]. intros (_ & H & _).
    destruct (j - file_no)%nat; discriminate H.
  - destruct (selects name_filter x) eqn:Ex; cbn; rewrite ?IH.
    + split.
      * intros [H|(Hle & Hn & Hs)].
        -- inversion H; subst. rewrite Nat.sub_diag. cbn. auto.
        -- replace (j - file_no)%nat with (S (j - S file_no)) by lia.
           cbn. repeat split; auto; lia.
      * intros (Hle & Hn & Hs).
        destruct (j - file_no)%nat as [|m] eqn:Em.
        -- left. cbn in Hn. inversion Hn; subst. f_equal. lia.
        -- right. cbn in Hn. replace (j - S file_no)%nat with m by lia.
           repeat split; auto; lia.
    + split.
      * intros (Hle & Hn & Hs).
        replace (j - file_no)%nat with (S (j - S file_no)) by lia.
        cbn. repeat split; auto; lia.
      * intros (Hle & Hn & Hs).
        destruct (j - file_no)%nat as [|m] eqn:Em.
        -- cbn in Hn. inversion Hn; subst. congruence.
        -- cbn in Hn. replace (j - S file_no)%nat with m by lia.
           repeat split; auto; lia.
Qed.

Lemma selects_cases name_filter name :
  selects name_filter name =
  if filtered_out name_filter name then false else CSV_EXT_RX name.
Proof. unfold selects. destruct (filtered_out name_filter name); reflexivity. Qed.

(** The walk when no scan and no call of [output_fn] fails. *)
Lemma walk_through name_filter scan sql_create_table output_fn names :
  (forall i name, scan i name = None) ->
  (forall output i name, output_fn = Some output -> output i name = None) ->
  forall file_no table_sql,
    walk name_filter scan sql_create_table output_fn file_no names table_sql =
    (flat_map (steps_of output_fn) (selected name_filter file_no names),
     inr (match output_fn with
          | Some _ => table_sql
          | None =>
              fold_left
                (fun d member =>
                   dict_set (table_name (snd member))
                     (sql_create_table (snd member)) d)
                (selected name_filter file_no names) table_sql
          end)).
Proof.
  intros Hs Ho. induction names as [|name names IH]; intros file_no table_sql.
  - cbn. destruct output_fn; reflexivity.
  - cbn [walk selected]. rewrite selects_cases.
    destruct (filtered_out name_filter name); [apply IH|].
    destruct (CSV_EXT_RX name); [|apply IH].
    rewrite Hs. unfold steps_of.
    destruct output_fn as [output|].
    + rewrite (Ho output _ _ eq_refl), IH. reflexivity.
    + rewrite IH. reflexivity.
Qed.

(** With an [output_fn] and no failure, [zip_walker] scans each selected
    member and hands it to [output_fn] right away, in the order of the
    archive listing, and returns [None]. *)
Theorem zip_walker_outputs_each_member name_filter scan sql_create_table
    output names :
  (forall i name, scan i name = None) ->
  (forall i name, output i name = None) ->
  zip_walker name_filter scan sql_create_table (Some output) (inr names) =
  (flat_map (fun member => [Scan (fst member) (snd member);
                            Output (fst member) (snd member)])
     (selected name_filter 0 names),
   Returns None).
Proof.
  intros Hs Ho. unfold zip_walker.
  rewrite walk_through; [reflexivity|exact Hs|].
  intros o i name H. inversion H; subst. apply Ho.
Qed.

Lemma zip_walker_outputs_each_member_witness :
  zip_walker None (fun _ _ => None) (fun name => name)
    (Some (fun _ _ => None))
    (inr ["readme.txt"; "a/t.csv"; "u.csv"]%string) =
  ([Scan 1 "a/t.csv"; Output 1 "a/t.csv"; Scan 2 "u.csv"; Output 2 "u.csv"]%string,
   Returns None).
Proof.
  apply (zip_walker_outputs_each_member None (fun _ _ => None)
           (fun name => name) (fun _ _ => None)
           ["readme.txt"; "a/t.csv"; "u.csv"]%string); reflexivity.
Defined.

Lemma flat_map_single {A B} (f : A -> B) l :
  flat_map (fun x => [f x]) l = map f l.
Proof. induction l as [|x l IH]; cbn; [reflexivity|]. rewrite IH. reflexivity. Qed.

Lemma fold_dict_get sql t members :
  forall d : dict string,
    dict_get t
      (fold_left
         (fun d (member : nat * string) =>
            dict_set (table_name (snd member)) (sql (snd member)) d)
         members d) =
    match find (fun member => String.eqb t (table_name (snd member)))
            (rev members) with
    | Some member => Some (sql (snd member))
    | None => dict_get t d
    end.
Proof.
  induction members as [|m members IH]; intros d; cbn [fold_left rev].
  - reflexivity.
  - rewrite IH, find_append.
    destruct (find _ (rev members)); [reflexivity|].
    cbn. destruct (String.eqb t (table_name (snd m))) eqn:E.
    + apply String.eqb_eq in E. subst t. apply dict_get_set_same.
    + apply String.eqb_neq in E. apply dict_get_set_other. exact E.
Qed.

(** Without an [output_fn] and with no failing scan, [zip_walker] scans
    the selected members in order and returns the dictionary in which a
    table name maps to the statement of the last selected member with
    that table name: members of different directories that share a file
    name overwrite each other. *)
Theorem zip_walker_table_sql name_filter scan sql_create_table names :
  (forall i name, scan i name = None) ->
  exists table_sql,
    zip_walker name_filter scan sql_create_table None (inr names) =
    (map (fun member => Scan (fst member) (snd member))
       (selected name_filter 0 names),
     Returns (Some table_sql)) /\
    forall t,
      dict_get t table_sql =
      match find (fun member => String.eqb t (table_name (snd member)))
              (rev (selected name_filter 0 names)) with
      | Some member => Some (sql_create_table (snd member))
      | None => None
      end.
Proof.
  intros Hs. unfold zip_walker.
  rewrite walk_through; [|exact Hs|intros o i name H; discriminate H].
  eexists. split.
  - unfold steps_of. rewrite flat_map_single. reflexivity.
  - intros t. rewrite fold_dict_get.
    destruct (find _ _); reflexivity.
Qed.

Lemma zip_walker_table_sql_witness :
  exists table_sql,
    zip_walker None (fun _ _ => None) (fun name => name) None
      (inr ["a/t.csv"; "b/t.csv"]%string) =
    (map (fun member => Scan (fst member) (snd member))
       (selected None 0 ["a/t.csv"; "b/t.csv"]%string),
     Returns (Some table_sql)) /\
    forall t,
      dict_get t table_sql =
      match find (fun member => String.eqb t (table_name (snd member)))
              (rev (selected None 0 ["a/t.csv"; "b/t.csv"]%string)) with
      | Some member => Some (snd member)
      | None => None
      end.
Proof.
  apply (zip_walker_table_sql None (fun _ _ => None) (fun name => name)
           ["a/t.csv"; "b/t.csv"]%string).
  reflexivity.
Defined.

Lemma walk_fails name_filter scan sql_create_table output_fn names :
  forall file_no table_sql steps e,
    walk name_filter scan sql_create_table output_fn file_no names table_sql
      = (steps, inl e) ->
    exists done i name rest,
      selected name_filter file_no names = done ++ (i, name) :: rest /\
      ((steps = flat_map (steps_of output_fn) done ++ [Scan i name] /\
        scan i name = Some e) \/
       (exists output,
          output_fn = Some output /\
          steps = flat_map (steps_of output_fn) done
                    ++ [Scan i name; Output i name] /\
          scan i name = None /\ output i name = Some e)).
Proof.
  induction names as [|name names IH]; intros file_no table_sql steps e H.
  - cbn in H. discriminate H.
  - cbn [walk selected] in *. rewrite selects_cases.
    destruct (filtered_out name_filter name); [apply (IH _ _ _ _ H)|].
    destruct (CSV_EXT_RX name); [|apply (IH _ _ _ _ H)].
    destruct (scan file_no name) as [e1|] eqn:Es.
    { inversion H; subst. exists [], file_no, name, (selected name_filter (S file_no) names).
      split; [reflexivity|]. left. auto. }
    destruct output_fn as [output|] eqn:Eo.
    + destruct (output file_no name) as [e1|] eqn:Eout.
      { inversion H; subst. exists [], file_no, name, (selected name_filter (S file_no) names).
        split; [reflexivity|]. right. exists output. auto. }
      destruct (walk _ _ _ _ (S file_no) names table_sql) as [steps' r] eqn:Ew.
      inversion H; subst.
      destruct (IH _ _ _ _ Ew) as (done & i & n & rest & Hsel & Hcase).
      exists ((file_no, name) :: done), i, n, rest.
      split; [rewrite Hsel; reflexivity|].
      destruct Hcase as [[-> Hsc]|(o & Ho & -> & Hsc & Hout)].
      * left. split; [reflexivity|exact Hsc].
      * right. exists o. repeat split; auto.
    + destruct (walk _ _ _ _ (S file_no) names _) as [steps' r] eqn:Ew.
      inversion H; subst.
      destruct (IH _ _ _ _ Ew) as (done & i & n & rest & Hsel & Hcase).
      exists ((file_no, name) :: done), i, n, rest.
      split; [rewrite Hsel; reflexivity|].
      destruct Hcase as [[-> Hsc]|(o & Ho & _)]; [|discriminate Ho].
      left. split; [reflexivity|exact Hsc].
Qed.

(** The first failure ends the walk: when [zip_walker] raises on an
    archive it could open, the exception is the one of the scan or of the
    [output_fn] call of some selected member; the members before it went
    through completely, and no member after it is touched. *)
Theorem zip_walker_stops_at_first_failure name_filter scan sql_create_table
    output_fn names steps e :
  zip_walker name_filter scan sql_create_table output_fn (inr names)
    = (steps, Raises e) ->
  exists done i name rest,
    selected name_filter 0 names = done ++ (i, name) :: rest /\
    ((steps = flat_map (steps_of output_fn) done ++ [Scan i name] /\
      scan i name = Some e) \/
     (exists output,
        output_fn = Some output /\
        steps = flat_map (steps_of output_fn) done
                  ++ [Scan i name; Output i name] /\
        scan i name = None /\ output i name = Some e)).
Proof.
  unfold zip_walker. intros H.
  destruct (walk name_filter scan sql_create_table output_fn 0 names [])
    as [steps' [e'|d]] eqn:Ew; inversion H; subst.
  apply (walk_fails _ _ _ _ _ _ _ _ _ Ew).
Qed.

Lemma zip_walker_stops_at_first_failure_witness :
  exists done i name rest,
    selected None 0 ["a.csv"; "b.csv"; "c.csv"]%string
      = done ++ (i, name) :: rest /\
    (([Scan 0 "a.csv"; Output 0 "a.csv"; Scan 1 "b.csv"; Output 1 "b.csv"]%string
        = flat_map (steps_of (Some second_fails)) done ++ [Scan i name] /\
      never_fails i name = Some UnboundLocalError) \/
     (exists output,
        Some second_fails = Some output /\
        [Scan 0 "a.csv"; Output 0 "a.csv"; Scan 1 "b.csv"; Output 1 "b.csv"]%string
          = flat_map (steps_of (Some second_fails)) done
              ++ [Scan i name; Output i name] /\
        never_fails i name = None /\
        output i name = Some UnboundLocalError)).
Proof.
  apply (zip_walker_stops_at_first_failure None never_fails (fun name => name)
           (Some second_fails) ["a.csv"; "b.csv"; "c.csv"]%string).
  reflexivity.
Defined.

Lemma walk_steps_selected name_filter scan sql_create_table output_fn names :
  forall file_no table_sql step,
    In step (fst (walk name_filter scan sql_create_table output_fn
                    file_no names table_sql)) ->
    In (step_member step) (selected name_filter file_no names).
Proof.
  induction names as [|name names IH]; intros file_no table_sql step H.
  - cbn in H. contradiction.
  - cbn [walk selected] in *. rewrite selects_cases.
    destruct (filtered_out name_filter name); [apply (IH _ _ _ H)|].
    destruct (CSV_EXT_RX name); [|apply (IH _ _ _ H)].
    destruct (scan file_no name) as [e1|].
    { cbn in H. destruct H as [<-|[]]. left. reflexivity. }
    destruct output_fn as [output|].
    + destruct (output file_no name) as [e1|].
      { cbn in H. destruct H as [<-|[<-|[]]]; left; reflexivity. }
      destruct (walk _ _ _ _ (S file_no) names table_sql) as [steps' r] eqn:Ew.
      cbn in H. destruct H as [<-|[<-|H]]; try (left; reflexivity).
      right. apply (IH (S file_no) table_sql). rewrite Ew. exact H.
    + destruct (walk _ _ _ _ (S file_no) names _) as [steps' r] eqn:Ew.
      cbn in H. destruct H as [<-|H]; try (left; reflexivity).
      right. eapply IH. rewrite Ew. exact H.
Qed.

(** Whatever fails or not, [zip_walker] only ever scans, or hands to
    [output_fn], a member of the archive listing that the filter lets
    through and whose name matches [CSV_EXT_RX]. *)
Theorem zip_walker_only_touches_selected name_filter scan sql_create_table
    output_fn names step :
  In step (fst (zip_walker name_filter scan sql_create_table output_fn
                  (inr names))) ->
  nth_error names (fst (step_member step)) = Some (snd (step_member step)) /\
  filtered_out name_filter (snd (step_member step)) = false /\
  CSV_EXT_RX (snd (step_member step)) = true.
Proof.
  intros H.
  assert (Hin : In (step_member step) (selected name_filter 0 names)).
  { apply (walk_steps_selected name_filter scan sql_create_table output_fn
             names 0 []).
    unfold zip_walker in H.
    destruct (walk name_filter scan sql_create_table output_fn 0 names [])
      as [steps [e|d]]; exact H. }
  destruct (step_member step) as [i name]. cbn [fst snd].
  apply selected_members in Hin as (_ & Hn & Hs).
  rewrite Nat.sub_0_r in Hn. split; [exact Hn|].
  unfold selects in Hs. apply andb_prop in Hs as [Hf Hc].
  split; [|exact Hc]. destruct (filtered_out name_filter name);
    [discriminate Hf|reflexivity].
Qed.

Lemma zip_walker_only_touches_selected_witness :
  nth_error ["readme.txt"; "a/t.csv"]%string 1 = Some "a/t.csv"%string /\
  filtered_out None "a/t.csv"%string = false /\
  CSV_EXT_RX "a/t.csv"%string = true.
Proof.
  apply (zip_walker_only_touches_selected None never_fails (fun name => name)
           (Some second_fails) ["readme.txt"; "a/t.csv"]%string
           (Output 1 "a/t.csv"%string)).
  cbn. auto.
Defined.
